(** * Content-based movie recommender: a shallow embedding of
      [app/recommender.py] and the properties of its specification.

    Modelling conventions.
    - Python [float] values (ratings, popularity, similarity scores) are
      exact rationals [Q]; rounding is not modelled.  The two library
      functions that leave the rationals, the logarithm of the idf weight
      and the square root of the L2 norm, are fields of [Sklearn] and every
      theorem holds for all of them.
    - Python exceptions are the [Raise] results of the monad [M]; the state
      threaded by [M] is the process-wide recommender [_recommender].
    - A Python [dict] is an insertion-ordered association list with unique
      keys ([Dict]), because the order of [score_map.items()] decides ties
      in the final ranking.
    - The database session is a read-only snapshot: the list of movie rows
      and the list of rating rows, in the order the store returns them.
    - Text is a string of bytes, the UTF-8 form of the Python [str].  The
      tokens of ASCII text are computed; those of other text depend on the
      Unicode tables of Python and are a field of [Sklearn]. *)

From Stdlib Require Import String Ascii.
From Stdlib Require Import List ZArith QArith Bool Arith Lia Lqa.
From Stdlib Require Import Permutation Sorted.
Import ListNotations.

Local Open Scope Q_scope.

(* ------------------------------------------------------------------ *)
(** ** Numbers *)

(** [x < y] on floats, as a boolean. *)
Definition Qlt_bool (x y : Q) : bool := negb (Qle_bool y x).

(** [np.sum] / [sum] of a list of floats. *)
Definition Qsum (l : list Q) : Q := fold_right Qplus 0 l.

(** The literal [1e-12] of [scores_for_movies]. *)
Definition epsilon : Q := 1 # 1000000000000.

(* ------------------------------------------------------------------ *)
(** ** Python containers *)

(** [enumerate(l)]. *)
Definition enumerate {A : Type} (l : list A) : list (nat * A) :=
  combine (seq 0 (length l)) l.

(** [not l] for a list. *)
Definition is_empty {A : Type} (l : list A) : bool :=
  match l with [] => true | _ :: _ => false end.

(** Insertion-ordered dictionaries with integer keys. *)
Module Dict.

Definition t (V : Type) : Type := list (Z * V).

Definition empty {V : Type} : t V := [].

(** [k in d] / [d.get(k)]. *)
Fixpoint get {V : Type} (k : Z) (d : t V) : option V :=
  match d with
  | [] => None
  | (k', v) :: d' => if Z.eqb k k' then Some v else get k d'
  end.

Definition mem {V : Type} (k : Z) (d : t V) : bool :=
  match get k d with Some _ => true | None => false end.

(** [d.get(k, default)]. *)
Definition get_default {V : Type} (k : Z) (default : V) (d : t V) : V :=
  match get k d with Some v => v | None => default end.

(** [d[k] = v]: an existing key keeps its position, a new key goes last. *)
Fixpoint set {V : Type} (k : Z) (v : V) (d : t V) : t V :=
  match d with
  | [] => [(k, v)]
  | (k', v') :: d' =>
      if Z.eqb k k' then (k', v) :: d' else (k', v') :: set k v d'
  end.

(** [d.pop(k, None)]. *)
Fixpoint pop {V : Type} (k : Z) (d : t V) : t V :=
  match d with
  | [] => []
  | (k', v') :: d' =>
      if Z.eqb k k' then d' else (k', v') :: pop k d'
  end.

(** A dict comprehension [{k: v for (k, v) in l}]. *)
Definition of_items {V : Type} (l : list (Z * V)) : t V :=
  fold_left (fun d kv => set (fst kv) (snd kv) d) l empty.

Definition keys {V : Type} (d : t V) : list Z := map fst d.

Definition items {V : Type} (d : t V) : list (Z * V) := d.

End Dict.

(* ------------------------------------------------------------------ *)
(** ** Sorting *)

Section Sorting.

Context {A : Type}.

(** [lt a b] says that the key of [a] is strictly below the key of [b]. *)
Variable lt : A -> A -> bool.

(** [x] comes from a position before every element of [l]: it is placed
    after the elements with a strictly larger key and before the first
    element whose key is not larger, so equal keys keep their order. *)
Fixpoint insert_desc (x : A) (l : list A) : list A :=
  match l with
  | [] => [x]
  | y :: l' => if lt x y then y :: insert_desc x l' else x :: l
  end.

(** The stable descending sort: [sorted(l, key=..., reverse=True)],
    [l.sort(key=..., reverse=True)] and [ORDER BY ... DESC]. *)
Definition sort_desc (l : list A) : list A := fold_right insert_desc [] l.

(** No element is followed (anywhere later) by a strictly larger one. *)
Definition descending (l : list A) : Prop :=
  StronglySorted (fun a b => lt a b = false) l.

End Sorting.

(** Comparison of two elements by a float-valued key, as in
    [key=lambda r: r.rating]. *)
Definition key_lt {A : Type} (key : A -> Q) (a b : A) : bool :=
  Qlt_bool (key a) (key b).

(** Descending order of a list of scores. *)
Definition scores_descending (l : list Q) : Prop :=
  StronglySorted (fun a b => b <= a) l.

(* ------------------------------------------------------------------ *)
(** ** The ORM rows of [models.py] *)

Record Movie : Type := mkMovie {
  id : Z;
  title : string;
  genres : option string;
  overview : option string;
  year : option Z;
  poster_url : option string;
  popularity : option Q
}.

Record Rating : Type := mkRating {
  user_id : Z;
  movie_id : Z;
  rating : Q
}.

(** The tables a [Session] reads. *)
Record Session : Type := mkSession {
  movies : list Movie;
  ratings : list Rating
}.

(** [m.popularity or 0.0]: [None] and [0.0] are both falsy. *)
Definition popularity_or_zero (m : Movie) : Q :=
  match popularity m with
  | Some p => if Qeq_bool p 0 then 0 else p
  | None => 0
  end.

(** [s or ""] for an optional text column. *)
Definition or_empty (s : option string) : string :=
  match s with Some x => x | None => EmptyString end.

(** Order of the [popularity] column: [NULL] sorts below every value
    (MySQL puts it last under [DESC]). *)
Definition popularity_lt (a b : Movie) : bool :=
  match popularity a, popularity b with
  | None, Some _ => true
  | Some x, Some y => Qlt_bool x y
  | _, _ => false
  end.

(** [db.query(Movie).all()]. *)
Definition query_movies_all (db : Session) : list Movie := movies db.

(** [db.query(Rating).filter(Rating.user_id == user_id).all()]. *)
Definition query_ratings_of (db : Session) (uid : Z) : list Rating :=
  filter (fun r => Z.eqb (user_id r) uid) (ratings db).

(** [db.query(Movie).order_by(Movie.popularity.desc()).limit(limit).all()];
    rows of equal popularity are taken in table order. *)
Definition query_movies_popular (db : Session) (limit : nat) : list Movie :=
  firstn limit (sort_desc popularity_lt (movies db)).

(** [db.query(Movie).filter(Movie.id.in_(ids)).all()]. *)
Definition query_movies_in (db : Session) (ids : list Z) : list Movie :=
  filter (fun m => existsb (Z.eqb (id m)) ids) (movies db).

(* ------------------------------------------------------------------ *)
(** ** Vectors and matrices *)

(** A row of the document-term matrix, one weight per vocabulary term. *)
Definition Row : Type := list Q.

Definition Matrix : Type := list Row.

Definition dot (x y : Row) : Q :=
  Qsum (map (fun ab => fst ab * snd ab) (combine x y)).

(** A row whose entries are all zero. *)
Definition zero_row (r : Row) : Prop := Forall (fun x => x == 0) r.

(* ------------------------------------------------------------------ *)
(** ** The text analyzer of [TfidfVectorizer]

    Text is a string of bytes, the UTF-8 form of the Python [str].  The
    analyzer is the default one of scikit-learn for [stop_words='english'],
    [ngram_range=(1,2)]: lower-case the document, keep the maximal runs of
    two or more word characters (the token pattern [(?u)\b\w\w+\b]), drop
    the stop words, and return the remaining tokens followed by the pairs
    of adjacent ones.

    [str.lower()] and the class [\w] follow the Unicode tables of Python.
    On a document of ASCII characters they are the functions [lower] and
    [is_word_char] below.  On a document with any other character the
    lower-cased tokens are whatever Python finds: the field
    [unicode_tokens] of [Sklearn], about which nothing is assumed. *)

(** All characters of the document are ASCII: every byte is below 128. *)
Fixpoint is_ascii (s : string) : bool :=
  match s with
  | EmptyString => true
  | String c s' => (nat_of_ascii c <? 128)%nat && is_ascii s'
  end.

(** [str.lower()] on ASCII text. *)
Definition is_upper (c : ascii) : bool :=
  let n := nat_of_ascii c in ((65 <=? n) && (n <=? 90))%nat.

Definition to_lower (c : ascii) : ascii :=
  if is_upper c then ascii_of_nat (nat_of_ascii c + 32) else c.

Fixpoint lower (s : string) : string :=
  match s with
  | EmptyString => EmptyString
  | String c s' => String (to_lower c) (lower s')
  end.

(** The class [\w] on ASCII text: letters, digits and the underscore. *)
Definition is_word_char (c : ascii) : bool :=
  let n := nat_of_ascii c in
  (((48 <=? n) && (n <=? 57)) || ((65 <=? n) && (n <=? 90))
   || ((97 <=? n) && (n <=? 122)) || (n =? 95))%nat.

(** The run read so far is a token when it has at least two characters. *)
Definition flush (cur : string) : list string :=
  if (2 <=? String.length cur)%nat then [cur] else [].

Fixpoint scan (s : string) (cur : string) : list string :=
  match s with
  | EmptyString => flush cur
  | String c s' =>
      if is_word_char c
      then scan s' (cur ++ String c EmptyString)%string
      else flush cur ++ scan s' EmptyString
  end.

Definition tokenize (s : string) : list string := scan s EmptyString.

Definition string_mem (t : string) (l : list string) : bool :=
  existsb (String.eqb t) l.

Fixpoint bigrams (l : list string) : list string :=
  match l with
  | a :: ((b :: _) as l') => (a ++ " " ++ b)%string :: bigrams l'
  | _ => []
  end.

Definition word_ngrams (tokens : list string) : list string :=
  tokens ++ bigrams tokens.

(** What scikit-learn and Python supply besides the code modelled here:
    the English stop-word table, the lower-cased tokens of a document with
    characters outside ASCII (document and tokens in UTF-8), and the two
    floating-point functions. *)
Record Sklearn : Type := mkSklearn {
  english_stop_words : list string;
  unicode_tokens : string -> list string;
  log : Q -> Q;
  sqrt : Q -> Q
}.

(** Python exceptions raised on the modelled paths. *)
Inductive Exception : Type :=
| ValueError
| IndexError.

Inductive Result (A : Type) : Type :=
| Ok (a : A)
| Raise (e : Exception).

Arguments Ok {A} a.
Arguments Raise {A} e.

(** The [max_features=20000] of the constructor. *)
Definition max_features : N := 20000.

Section Vectorizer.

Variable sk : Sklearn.

(** The lower-cased tokens of a document: computed for ASCII text, taken
    from Python otherwise. *)
Definition document_tokens (doc : string) : list string :=
  if is_ascii doc then tokenize (lower doc) else unicode_tokens sk doc.

Definition analyze (doc : string) : list string :=
  word_ngrams
    (filter (fun t => negb (string_mem t (english_stop_words sk)))
            (document_tokens doc)).

(** Number of occurrences of term [t] in an analyzed document. *)
Definition term_count (t : string) (doc : list string) : nat :=
  count_occ string_dec doc t.

(** Total frequency of [t] over the corpus. *)
Definition term_frequency (docs : list (list string)) (t : string) : nat :=
  fold_right Nat.add 0%nat (map (term_count t) docs).

(** Number of documents that contain [t]. *)
Definition document_frequency (docs : list (list string)) (t : string)
  : nat :=
  List.length (filter (fun d => string_mem t d) docs).

(** The distinct terms of the corpus, in alphabetical order. *)
Definition count_vocab (docs : list (list string)) : list string :=
  sort_desc (fun a b => String.ltb b a) (nodup string_dec (concat docs)).

(** Above [max_features] terms, only the most frequent ones survive
    (ties: the alphabetically first); the survivors keep their order. *)
Definition limit_features (docs : list (list string))
  (vocab : list string) : list string :=
  if (N.of_nat (List.length vocab) <=? max_features)%N then vocab
  else
    let kept :=
      firstn (N.to_nat max_features)
        (sort_desc
           (fun a b => (term_frequency docs a <? term_frequency docs b)%nat)
           vocab) in
    filter (fun t => string_mem t kept) vocab.

(** Smoothed inverse document frequency, [ln((1+n)/(1+df)) + 1]. *)
Definition idf (docs : list (list string)) (t : string) : Q :=
  log sk ((1 + inject_Z (Z.of_nat (List.length docs)))
          / (1 + inject_Z (Z.of_nat (document_frequency docs t)))) + 1.

(** L2 normalisation of a sparse row: a row without a non-zero entry is
    left as it is. *)
Definition normalize (r : Row) : Row :=
  let s := Qsum (map (fun x => x * x) r) in
  if Qeq_bool s 0 then r else map (fun x => x / sqrt sk s) r.

(** The tf-idf row of one analyzed document under a vocabulary. *)
Definition tfidf_row (docs : list (list string)) (vocab : list string)
  (doc : list string) : Row :=
  normalize
    (map (fun t => inject_Z (Z.of_nat (term_count t doc)) * idf docs t)
         vocab).

(** [self.vectorizer.fit_transform(corpus)]: an empty vocabulary is the
    [ValueError] "empty vocabulary; perhaps the documents only contain
    stop words". *)
Definition fit_transform (corpus : list string) : Result Matrix :=
  let docs := map analyze corpus in
  let vocab := count_vocab docs in
  if is_empty vocab then Raise ValueError
  else
    let vocab' := limit_features docs vocab in
    Ok (map (tfidf_row docs vocab') docs).

(** Cosine similarity of two rows: the dot product of their L2-normalised
    forms. *)
Definition cosine (x y : Row) : Q := dot (normalize x) (normalize y).

(** [cosine_similarity(X, Y)]: entry [(i, j)] is the cosine similarity of
    row [i] of [X] and row [j] of [Y]. *)
Definition cosine_similarity (X Y : Matrix) : Matrix :=
  map (fun x => map (fun y => cosine x y) Y) X.

(** The score of the specification, in its words: the sum, over the liked
    rows, of the similarity to the liked row times that row's weight
    divided by the sum of all weights plus epsilon. *)
Definition weighted_average (x : Row) (liked_rows : list Row)
  (weights : list Q) : Q :=
  Qsum (map (fun yw => cosine x (fst yw)
                       * (snd yw / (Qsum weights + epsilon)))
            (combine liked_rows weights)).

End Vectorizer.

(* ------------------------------------------------------------------ *)
(** ** The recommender object and the monad of its methods *)

(** The two attributes of a [ContentRecommender] that the code reads.
    (The fitted vocabulary kept inside [self.vectorizer] is never read
    again and is left out.) *)
Record ContentRecommender : Type := mkRecommender {
  movie_ids : list Z;
  tfidf_matrix : option Matrix
}.

(** The process state: the module-level singleton [_recommender], and two
    observation counters that the code does not have, the number of calls
    of [fit] and of [cosine_similarity] made so far. *)
Record World : Type := mkWorld {
  recommender : ContentRecommender;
  fit_calls : nat;
  similarity_calls : nat
}.

(** [ContentRecommender()]: created empty. *)
Definition new_recommender : ContentRecommender := mkRecommender [] None.

Definition initial_world : World := mkWorld new_recommender 0 0.

(** A computation either returns a value or raises, and leaves a state
    behind in both cases. *)
Definition M (A : Type) : Type := World -> Result A * World.

Definition ret {A : Type} (a : A) : M A := fun w => (Ok a, w).

Definition raise {A : Type} (e : Exception) : M A := fun w => (Raise e, w).

Definition bind {A B : Type} (c : M A) (k : A -> M B) : M B :=
  fun w =>
    match c w with
    | (Ok a, w') => k a w'
    | (Raise e, w') => (Raise e, w')
    end.

Definition lift {A : Type} (r : Result A) : M A := fun w => (r, w).

Definition get_self : M ContentRecommender := fun w => (Ok (recommender w), w).

Definition set_movie_ids (ids : list Z) : M unit :=
  fun w =>
    (Ok tt,
     mkWorld (mkRecommender ids (tfidf_matrix (recommender w)))
             (fit_calls w) (similarity_calls w)).

Definition set_tfidf_matrix (X : option Matrix) : M unit :=
  fun w =>
    (Ok tt,
     mkWorld (mkRecommender (movie_ids (recommender w)) X)
             (fit_calls w) (similarity_calls w)).

Definition tick_fit : M unit :=
  fun w => (Ok tt, mkWorld (recommender w) (S (fit_calls w))
                           (similarity_calls w)).

Definition tick_similarity : M unit :=
  fun w => (Ok tt, mkWorld (recommender w) (fit_calls w)
                           (S (similarity_calls w))).

Declare Scope py_scope.
Delimit Scope py_scope with py.

Notation "x <- c ;; k" := (bind c (fun x => k))
  (at level 61, c at next level, right associativity) : py_scope.
Notation "c ;; k" := (bind c (fun _ => k))
  (at level 61, right associativity) : py_scope.

(** Monadic map over a list, left to right, stopping at the first error. *)
Fixpoint traverse {A B : Type} (f : A -> Result B) (l : list A)
  : Result (list B) :=
  match l with
  | [] => Ok []
  | x :: l' =>
      match f x with
      | Raise e => Raise e
      | Ok y =>
          match traverse f l' with
          | Raise e => Raise e
          | Ok ys => Ok (y :: ys)
          end
      end
  end.

(** [X[i]] on a sequence: out of range is an [IndexError]. *)
Definition index {A : Type} (l : list A) (i : nat) : Result A :=
  match nth_error l i with
  | Some x => Ok x
  | None => Raise IndexError
  end.

(** [X[indices]]: row selection by a list of positions. *)
Definition take_rows (X : Matrix) (indices : list nat) : Result Matrix :=
  traverse (index X) indices.

(** [sims @ w] for a matrix and a vector: the row length of [sims] must be
    the length of [w], otherwise numpy raises a [ValueError]. *)
Definition matmul (sims : Matrix) (w : list Q) : Result (list Q) :=
  if forallb (fun r => (List.length r =? List.length w)%nat) sims
  then Ok (map (fun r => dot r w) sims)
  else Raise ValueError.

Section Recommender.

Variable sk : Sklearn.

Local Open Scope py_scope.

(** [ContentRecommender._build_corpus_row]. *)
Definition _build_corpus_row (m : Movie) : string :=
  String.concat " "
    [title m; or_empty (genres m); or_empty (overview m)].

(** [ContentRecommender.fit]. *)
Definition fit (movies : list Movie) : M unit :=
  tick_fit ;;
  set_movie_ids (map id movies) ;;
  let corpus := map _build_corpus_row movies in
  if (List.length corpus =? 0)%nat then set_tfidf_matrix None
  else
    X <- lift (fit_transform sk corpus) ;;
    set_tfidf_matrix (Some X).

(** The positions of the liked movies in the model:
    [[id_to_index[mid] for mid in liked_movie_ids if mid in id_to_index]]. *)
Definition liked_indices (ids : list Z) (liked_movie_ids : list Z)
  : list nat :=
  let id_to_index :=
    Dict.of_items (map (fun im => (snd im, fst im)) (enumerate ids)) in
  flat_map
    (fun mid =>
       match Dict.get mid id_to_index with
       | Some i => [i]
       | None => []
       end)
    liked_movie_ids.

(** The rows of the liked movies, [self.tfidf_matrix[indices]] where all
    positions are in range. *)
Definition liked_rows (X : Matrix) (ids liked_movie_ids : list Z)
  : list Row :=
  map (fun i => nth i X []) (liked_indices ids liked_movie_ids).

(** [ContentRecommender.scores_for_movies].  The division by
    [np.sum(weights) + 1e-12] never raises in numpy (a zero denominator
    gives [inf] or [nan] and a warning); in the model it is the total
    division of [Q]. *)
Definition scores_for_movies (liked_movie_ids : list Z)
  (weights : option (list Q)) : M (Dict.t Q) :=
  self <- get_self ;;
  match tfidf_matrix self with
  | None => ret Dict.empty
  | Some X =>
      if is_empty (movie_ids self) then ret Dict.empty
      else
        let indices := liked_indices (movie_ids self) liked_movie_ids in
        if is_empty indices then ret Dict.empty
        else
          Y <- lift (take_rows X indices) ;;
          tick_similarity ;;
          let sims := cosine_similarity sk X Y in
          let weights :=
            match weights with
            | None => repeat 1 (List.length indices)
            | Some ws => ws
            end in
          let w := map (fun x => x / (Qsum weights + epsilon)) weights in
          scores <- lift (matmul sims w) ;;
          result <- lift (traverse
                            (fun im =>
                               match index scores (fst im) with
                               | Ok s => Ok (snd im, s)
                               | Raise e => Raise e
                               end)
                            (enumerate (movie_ids self))) ;;
          ret (fold_left (fun r mid => Dict.pop mid r) liked_movie_ids
                         (Dict.of_items result))
  end.

(** [ensure_model]: refit when the matrix is missing or the number of
    identifiers differs from the number of movies. *)
Definition ensure_model (db : Session) : M ContentRecommender :=
  let movies := query_movies_all db in
  self <- get_self ;;
  (if match tfidf_matrix self with None => true | Some _ => false end
      || negb (List.length (movie_ids self) =? List.length movies)%nat
   then fit movies
   else ret tt) ;;
  get_self.

(** The popularity ranking of the cold-start and fallback branches. *)
Definition popularity_ranking (db : Session) (limit : nat)
  : list (Movie * Q) :=
  map (fun m => (m, popularity_or_zero m)) (query_movies_popular db limit).

(** The liked-item signal: the (at most ten) highest ratings. *)
Definition top_ratings (ratings : list Rating) : list Rating :=
  let ratings_sorted :=
    sort_desc (key_lt rating) ratings in
  firstn (Nat.min 10 (List.length ratings_sorted)) ratings_sorted.

(** Steps 5 of [recommend_for_user]: blend and sort. *)
Definition blend (db : Session) (score_map : Dict.t Q) : list (Z * Q) :=
  let pop_map :=
    Dict.of_items
      (map (fun m => (id m, popularity_or_zero m)) (query_movies_all db)) in
  sort_desc (key_lt snd)
    (map (fun ms =>
            (fst ms, snd ms * 0.9 + 0.1 * Dict.get_default (fst ms) 0 pop_map))
         (Dict.items score_map)).

(** Steps 6 and 7: resolve the identifiers of the first [limit] blended
    entries and keep the entries that resolved. *)
Definition resolve (db : Session) (limit : nat) (blended : list (Z * Q))
  : list (Movie * Q) :=
  let id_to_movie :=
    Dict.of_items
      (map (fun m => (id m, m))
           (query_movies_in db (map fst (firstn limit blended)))) in
  firstn limit
    (flat_map
       (fun ms =>
          match Dict.get (fst ms) id_to_movie with
          | Some m => [(m, snd ms)]
          | None => []
          end)
       blended).

(** [recommend_for_user]. *)
Definition recommend_for_user (db : Session) (uid : Z) (limit : nat)
  : M (list (Movie * Q)) :=
  let ratings := query_ratings_of db uid in
  if is_empty ratings then ret (popularity_ranking db limit)
  else
    let top := top_ratings ratings in
    let liked_ids := map movie_id top in
    let weights := map rating top in
    _ <- ensure_model db ;;
    score_map <- scores_for_movies liked_ids (Some weights) ;;
    if is_empty score_map then ret (popularity_ranking db limit)
    else ret (resolve db limit (blend db score_map)).

End Recommender.

(** The state of the model after a fit on a catalog that is not empty:
    one row per identifier, and identifiers that are primary keys. *)
Definition fitted (self : ContentRecommender) (X : Matrix) : Prop :=
  tfidf_matrix self = Some X
  /\ List.length X = List.length (movie_ids self)
  /\ movie_ids self <> []
  /\ NoDup (movie_ids self).

(** The state after one more call of [cosine_similarity]. *)
Definition after_similarity (w : World) : World :=
  mkWorld (recommender w) (fit_calls w) (S (similarity_calls w)).

(** [k not in liked]. *)
Definition not_liked (liked : list Z) (k : Z) : bool :=
  negb (existsb (Z.eqb k) liked).

(** The movie row a batch lookup by identifier returns for [mid] (the last
    one in table order, were an identifier repeated). *)
Definition lookup_movie (db : Session) (mid : Z) : option Movie :=
  find (fun m => Z.eqb mid (id m)) (rev (movies db)).

(** The result of the personalised branch in the words of the
    specification: the first [limit] blended entries, each resolved to its
    movie row, the entries that do not resolve left out. *)
Definition resolve_top (db : Session) (limit : nat) (blended : list (Z * Q))
  : list (Movie * Q) :=
  flat_map
    (fun ms =>
       match lookup_movie db (fst ms) with
       | Some m => [(m, snd ms)]
       | None => []
       end)
    (firstn limit blended).

(** The data model's range of the popularity column: not negative. *)
Definition popularity_nonneg (db : Session) : Prop :=
  Forall (fun m => match popularity m with
                   | Some p => 0 <= p
                   | None => True
                   end)
         (movies db).

(** The analyzed documents of a catalog and the vocabulary learnt from
    them. *)
Definition catalog_documents (sk : Sklearn) (movies : list Movie)
  : list (list string) :=
  map (analyze sk) (map _build_corpus_row movies).

Definition catalog_vocabulary (sk : Sklearn) (movies : list Movie)
  : list string :=
  limit_features (catalog_documents sk movies)
                 (count_vocab (catalog_documents sk movies)).

(** The vector of one item under the vocabulary learnt from a catalog. *)
Definition document_vector (sk : Sklearn) (movies : list Movie) (m : Movie)
  : Row :=
  tfidf_row sk (catalog_documents sk movies) (catalog_vocabulary sk movies)
            (analyze sk (_build_corpus_row m)).

(** An item without text: empty title, genres and overview empty or
    absent. *)
Definition textless (m : Movie) : Prop :=
  title m = EmptyString
  /\ or_empty (genres m) = EmptyString
  /\ or_empty (overview m) = EmptyString.

(** The liked-item signal [recommend_for_user] derives from the ratings of
    a user. *)
Definition liked_ids_of (db : Session) (uid : Z) : list Z :=
  map movie_id (top_ratings (query_ratings_of db uid)).

Definition weights_of (db : Session) (uid : Z) : list Q :=
  map rating (top_ratings (query_ratings_of db uid)).

(* ------------------------------------------------------------------ *)
(** ** Sample data for evaluation *)

Module Sample.

(** Rational stand-ins for the two floating-point functions. *)
Definition sqrt (x : Q) : Q :=
  Qred (Z.sqrt (Qnum x * 1000000 / Zpos (Qden x)) # 1000).

Definition log (x : Q) : Q :=
  let y := (x - 1) / (x + 1) in Qred (2 * (y + y * y * y / 3)).

(** A stand-in for the tokens of non-ASCII text: every byte of a
    character outside ASCII counts as a word character, and only ASCII
    letters are lower-cased. *)
Fixpoint scan_wide (s : string) (cur : string) : list string :=
  match s with
  | EmptyString => flush cur
  | String c s' =>
      if (is_word_char c || (128 <=? nat_of_ascii c)%nat)%bool
      then scan_wide s' (cur ++ String c EmptyString)%string
      else flush cur ++ scan_wide s' EmptyString
  end.

Definition unicode_tokens (doc : string) : list string :=
  scan_wide (lower doc) EmptyString.

Definition sklearn : Sklearn :=
  mkSklearn ["the"; "and"; "it"; "of"; "up"]%string unicode_tokens log sqrt.

Definition movie (i : Z) (t : string) (g : option string)
  (p : option Q) : Movie :=
  mkMovie i t g None None None p.

Definition space_war : Movie :=
  movie 1 "Space War" (Some "Sci-Fi"%string) (Some 5).
Definition space_battle : Movie :=
  movie 2 "Space Battle" (Some "Sci-Fi"%string) (Some 1).
Definition romance_story : Movie :=
  movie 3 "Romance Story" (Some "Drama"%string) (Some 9).
Definition untitled : Movie := movie 4 EmptyString None None.
Definition it : Movie := movie 5 "It" None (Some 3).

(** A title outside ASCII: the nine UTF-8 bytes of the three Hangul
    syllables U+AE30, U+C0DD, U+CDA9. *)
Definition hangul_title : string :=
  string_of_list_ascii
    (map ascii_of_nat [234; 184; 176; 236; 131; 157; 236; 182; 169]%nat).

Definition hangul : Movie := movie 6 hangul_title None (Some 4).

Definition catalog : list Movie := [space_war; space_battle; romance_story].

(** User 7 rated movie 1; user 8 rated nothing. *)
Definition db : Session := mkSession catalog [mkRating 7 1 5].

Definition empty_db : Session := mkSession [] [].

(** A fitted three-movie model with hand-written rows. *)
Definition rows : Matrix := [[1; 0]; [1; 1]; [0; 1]].

Definition model : ContentRecommender := mkRecommender [1; 2; 3]%Z (Some rows).

Definition world : World := mkWorld model 1 0.

(** The catalog after movie 3 left it and movie 4 joined it: the number
    of movies is unchanged, so a cached model is not refitted.  User 9
    rated the movies 1 and 4, user 6 only movie 4. *)
Definition space_opera : Movie := movie 4 "Space Opera" None (Some 2).

Definition changed_db : Session :=
  mkSession [space_war; space_battle; space_opera]
            [mkRating 7 1 5; mkRating 9 1 5; mkRating 9 4 4; mkRating 6 4 3].

(** A cached model in which the row of movie 3 is the closest to the row
    of movie 1. *)
Definition stale_world : World :=
  mkWorld (mkRecommender [1; 2; 3]%Z (Some [[1; 0]; [0; 1]; [1; 1]])) 1 0.

End Sample.

(* ------------------------------------------------------------------ *)
(** ** The request handlers of [routers/]

    A handler either returns its response body or raises; the two
    exceptions raised in the handlers themselves are listed here, the
    exceptions of the recommender reach the caller through [M]. *)

Inductive HandlerError : Type :=
| HTTPException (status_code : nat) (detail : string)
| MultipleResultsFound.

(** [schemas.RecommendationOut]; [MovieOut] has the columns of [Movie], so
    [MovieOut.model_validate(m)] is [m]. *)
Record RecommendationOut : Type := mkRecommendationOut {
  movie : Movie;
  score : Q
}.

(** [routers/recommend.py], [recommend]. *)
Definition recommend (sk : Sklearn) (db : Session) (uid : Z) (limit : nat)
  : M (HandlerError + list RecommendationOut) :=
  bind (recommend_for_user sk db uid limit)
       (fun recs =>
          if is_empty recs
          then ret (inl (HTTPException 404 "No recommendations available"))
          else ret (inr (map (fun ms => mkRecommendationOut (fst ms) (snd ms))
                             recs))).

(** [routers/movies.py], [list_movies]:
    [db.query(Movie).offset(skip).limit(limit).all()]. *)
Definition list_movies (db : Session) (skip limit : nat) : list Movie :=
  firstn limit (skipn skip (movies db)).

(** [models.User]. *)
Record User : Type := mkUser {
  user_pk : Z;
  name : string
}.

(** The three tables. *)
Record Database : Type := mkDatabase {
  users : list User;
  session : Session
}.

(** [schemas.RatingIn]. *)
Record RatingIn : Type := mkRatingIn {
  in_movie_id : Z;
  in_rating : Q
}.

(** [routers/users.py], [list_users] and [get_ratings]. *)
Definition list_users (db : Database) : list User := users db.

Definition get_ratings (db : Database) (uid : Z) : list Rating :=
  query_ratings_of (session db) uid.

(** [db.query(User).get(pk)] and [db.query(Movie).get(pk)]. *)
Definition get_user (db : Database) (pk : Z) : option User :=
  find (fun u => Z.eqb (user_pk u) pk) (users db).

Definition get_movie (db : Database) (pk : Z) : option Movie :=
  find (fun m => Z.eqb (id m) pk) (movies (session db)).

(** [Query.one_or_none()]. *)
Inductive OneOrNone (A : Type) : Type :=
| NoRow
| OneRow (a : A)
| ManyRows.

Arguments NoRow {A}.
Arguments OneRow {A} a.
Arguments ManyRows {A}.

Definition one_or_none {A : Type} (rows : list A) : OneOrNone A :=
  match rows with
  | [] => NoRow
  | [a] => OneRow a
  | _ :: _ :: _ => ManyRows
  end.

(** The rating of a user for a movie is identified by the two keys. *)
Definition same_key (uid mid : Z) (r : Rating) : bool :=
  Z.eqb (user_id r) uid && Z.eqb (movie_id r) mid.

(** [r.rating = value] followed by [db.commit()]: the row keeps its
    place. *)
Definition update_rating (uid mid : Z) (value : Q) (rows : list Rating)
  : list Rating :=
  map (fun r => if same_key uid mid r then mkRating uid mid value else r) rows.

Definition with_ratings (db : Database) (rows : list Rating) : Database :=
  mkDatabase (users db) (mkSession (movies (session db)) rows).

Section Upsert.

(** [db.add(r)] followed by [db.commit()]: where the store shows the new
    row among the others in later queries is up to the store. *)
Variable add_row : Rating -> list Rating -> list Rating.

(** [routers/users.py], [upsert_rating]. *)
Definition upsert_rating (db : Database) (uid : Z) (payload : RatingIn)
  : (HandlerError + Rating) * Database :=
  match get_user db uid, get_movie db (in_movie_id payload) with
  | Some _, Some _ =>
      let rows := ratings (session db) in
      match one_or_none (filter (same_key uid (in_movie_id payload)) rows) with
      | ManyRows => (inl MultipleResultsFound, db)
      | OneRow _ =>
          (inr (mkRating uid (in_movie_id payload) (in_rating payload)),
           with_ratings db
             (update_rating uid (in_movie_id payload) (in_rating payload)
                            rows))
      | NoRow =>
          let r := mkRating uid (in_movie_id payload) (in_rating payload) in
          (inr r, with_ratings db (add_row r rows))
      end
  | _, _ => (inl (HTTPException 404 "User or movie not found"), db)
  end.

End Upsert.

(** The composite primary key of [ratings]: one row per user and movie. *)
Definition ratings_unique (rows : list Rating) : Prop :=
  NoDup (map (fun r => (user_id r, movie_id r)) rows).

(** The foreign keys of [ratings]. *)
Definition references_exist (db : Database) : Prop :=
  forall r, In r (ratings (session db)) ->
            get_user db (user_id r) <> None
            /\ get_movie db (movie_id r) <> None.

(** The model is in step with the catalog: fitted, with the identifiers of
    the catalog in table order. *)
Definition in_step (w : World) (db : Session) (X : Matrix) : Prop :=
  fitted (recommender w) X
  /\ movie_ids (recommender w) = map id (movies db).

(** The catalog movies that are not among the liked ones. *)
Definition candidates (db : Session) (liked : list Z) : list Movie :=
  filter (fun m => not_liked liked (id m)) (movies db).

Module Sample2.

Definition alice : User := mkUser 7 "Alice".
Definition bob : User := mkUser 8 "Bob".

Definition database : Database := mkDatabase [alice; bob] Sample.db.

(** A store that shows a new row after the others. *)
Definition append_row (r : Rating) (rows : list Rating) : list Rating :=
  rows ++ [r].


(** A catalog of one movie, rated by user 7, and a model fitted on it. *)
Definition single_db : Session :=
  mkSession [Sample.space_war] [mkRating 7 1 5].

Definition single_world : World :=
  mkWorld (mkRecommender [1%Z] (Some [[1; 0]])) 1 0.

(** A model fitted on the sample catalog itself. *)
Definition fitted_world : World :=
  snd (fit Sample.sklearn Sample.catalog initial_world).

End Sample2.

(* ------------------------------------------------------------------ *)
(** ** Facts about lists *)

Lemma filter_all {A : Type} (f : A -> bool) (l : list A) :
  (forall x, In x l -> f x = true) -> filter f l = l.
Proof.
  induction l as [|a l IH]; simpl; intros H; [reflexivity|].
  rewrite (H a) by now left. f_equal. apply IH. intros x Hx. apply H. now right.
Qed.

Lemma NoDup_app_disjoint {A : Type} (l1 l2 : list A) a :
  NoDup (l1 ++ l2) -> In a l1 -> ~ In a l2.
Proof.
  induction l1 as [|b l1 IH]; simpl; intros Hnd [].
  - subst. inversion Hnd as [|? ? Hnotin _]; subst.
    intros H2. apply Hnotin, in_or_app. now right.
  - inversion Hnd; subst. auto.
Qed.

Lemma is_empty_false {A : Type} (l : list A) : l <> [] -> is_empty l = false.
Proof. destruct l; [congruence | reflexivity]. Qed.

(* ------------------------------------------------------------------ *)
(** ** Facts about dictionaries *)

Module DictFacts.
Section WithValues.

Context {V : Type}.
Implicit Types (d : Dict.t V) (k : Z) (v : V).

Lemma get_set k k' v d :
  Dict.get k (Dict.set k' v d) = if Z.eqb k k' then Some v else Dict.get k d.
Proof.
  induction d as [|[k0 v0] d IH]; simpl.
  - reflexivity.
  - destruct (Z.eqb_spec k' k0) as [->|Hne]; simpl.
    + destruct (Z.eqb k k0); reflexivity.
    + destruct (Z.eqb_spec k k0) as [->|Hne'].
      * destruct (Z.eqb_spec k0 k'); [congruence | reflexivity].
      * exact IH.
Qed.

Lemma get_None_keys k d : Dict.get k d = None <-> ~ In k (Dict.keys d).
Proof.
  induction d as [|[k0 v0] d IH]; simpl.
  - tauto.
  - destruct (Z.eqb_spec k k0) as [->|Hne].
    + split; [discriminate | intros H; exfalso; apply H; now left].
    + rewrite IH. split; [intros H [E|HI]; [congruence | tauto] | tauto].
Qed.

Lemma get_Some_In k v d : Dict.get k d = Some v -> In (k, v) d.
Proof.
  induction d as [|[k0 v0] d IH]; simpl; [discriminate|].
  destruct (Z.eqb_spec k k0) as [->|Hne].
  - intros [= ->]. now left.
  - intros H. right. auto.
Qed.

Lemma In_get k v d : NoDup (Dict.keys d) -> In (k, v) d -> Dict.get k d = Some v.
Proof.
  induction d as [|[k0 v0] d IH]; simpl; [tauto|].
  intros Hnd [E|HI].
  - inversion E; subst. now rewrite Z.eqb_refl.
  - inversion Hnd as [|? ? Hnotin Hnd']; subst.
    destruct (Z.eqb_spec k k0) as [->|Hne].
    + exfalso. apply Hnotin. unfold Dict.keys.
      change k0 with (fst (k0, v)). now apply in_map.
    + auto.
Qed.

Lemma keys_set k v d :
  Dict.keys (Dict.set k v d)
  = if Dict.mem k d then Dict.keys d else Dict.keys d ++ [k].
Proof.
  unfold Dict.mem.
  induction d as [|[k0 v0] d IH]; simpl; [reflexivity|].
  destruct (Z.eqb_spec k k0) as [->|Hne]; simpl; [reflexivity|].
  rewrite IH. now destruct (Dict.get k d).
Qed.

Lemma NoDup_set k v d :
  NoDup (Dict.keys d) -> NoDup (Dict.keys (Dict.set k v d)).
Proof.
  intros Hnd. rewrite keys_set. unfold Dict.mem.
  destruct (Dict.get k d) eqn:E; [assumption|].
  apply get_None_keys in E.
  apply NoDup_app; [assumption | repeat constructor; simpl; tauto |].
  intros x Hx [<-|[]]. contradiction.
Qed.

Lemma fold_set_NoDup (l : list (Z * V)) d :
  NoDup (Dict.keys d) ->
  NoDup (Dict.keys (fold_left (fun d kv => Dict.set (fst kv) (snd kv) d) l d)).
Proof.
  revert d. induction l as [|[k v] l IH]; simpl; intros d Hnd.
  - assumption.
  - apply IH. now apply NoDup_set.
Qed.

Lemma NoDup_of_items (l : list (Z * V)) : NoDup (Dict.keys (Dict.of_items l)).
Proof. apply fold_set_NoDup. constructor. Qed.

Lemma fold_set_get (l : list (Z * V)) d k :
  Dict.get k (fold_left (fun d kv => Dict.set (fst kv) (snd kv) d) l d)
  = match Dict.get k (rev l) with
    | Some v => Some v
    | None => Dict.get k d
    end.
Proof.
  revert d. induction l as [|[k0 v0] l IH]; simpl; intros d.
  - reflexivity.
  - rewrite IH, get_set.
    assert (Happ : forall (a b : Dict.t V),
               Dict.get k (a ++ b)
               = match Dict.get k a with
                 | Some v => Some v
                 | None => Dict.get k b
                 end).
    { induction a as [|[ka va] a IHa]; simpl; intros b; [reflexivity|].
      destruct (Z.eqb k ka); [reflexivity | apply IHa]. }
    rewrite Happ. simpl.
    destruct (Dict.get k (rev l)); [reflexivity|].
    destruct (Z.eqb k k0); reflexivity.
Qed.

(** In a comprehension the last binding of a key wins. *)
Lemma get_of_items (l : list (Z * V)) k :
  Dict.get k (Dict.of_items l) = Dict.get k (rev l).
Proof.
  unfold Dict.of_items. rewrite fold_set_get.
  now destruct (Dict.get k (rev l)).
Qed.

Lemma keys_of_items_In (l : list (Z * V)) k :
  In k (Dict.keys (Dict.of_items l)) <-> In k (map fst l).
Proof.
  assert (H : Dict.get k (Dict.of_items l) = None <-> ~ In k (map fst l)).
  { rewrite get_of_items, get_None_keys. unfold Dict.keys.
    rewrite map_rev, <- in_rev. tauto. }
  pose proof (get_None_keys k (Dict.of_items l)) as H'.
  destruct (in_dec Z.eq_dec k (Dict.keys (Dict.of_items l)));
    destruct (in_dec Z.eq_dec k (map fst l)); tauto.
Qed.

(** A list of items with distinct keys is its own dictionary. *)
Lemma fold_set_fresh (l : list (Z * V)) d :
  NoDup (Dict.keys d ++ map fst l) ->
  fold_left (fun d kv => Dict.set (fst kv) (snd kv) d) l d = d ++ l.
Proof.
  revert d. induction l as [|[k v] l IH]; simpl; intros d Hnd.
  - now rewrite app_nil_r.
  - assert (Hset : Dict.set k v d = d ++ [(k, v)]).
    { pose proof (NoDup_remove_2 _ _ _ Hnd) as Hfresh.
      assert (Hk : ~ In k (Dict.keys d))
        by (intros H; apply Hfresh, in_or_app; tauto).
      clear - Hk. induction d as [|[k0 v0] d IHd]; simpl in *; [reflexivity|].
      destruct (Z.eqb_spec k k0) as [->|Hne]; [tauto|]. f_equal. tauto. }
    rewrite Hset, IH.
    + now rewrite <- app_assoc.
    + unfold Dict.keys in *. rewrite map_app, <- app_assoc. exact Hnd.
Qed.

Lemma of_items_NoDup (l : list (Z * V)) :
  NoDup (map fst l) -> Dict.of_items l = l.
Proof. intros H. unfold Dict.of_items. now rewrite fold_set_fresh. Qed.

Lemma pop_filter k d :
  NoDup (Dict.keys d) ->
  Dict.pop k d = filter (fun kv => negb (Z.eqb (fst kv) k)) d.
Proof.
  induction d as [|[k0 v0] d IH]; simpl; intros Hnd; [reflexivity|].
  inversion Hnd as [|? ? Hnotin Hnd']; subst.
  rewrite (Z.eqb_sym k0 k).
  destruct (Z.eqb_spec k k0) as [->|Hne]; simpl.
  - symmetry. apply filter_all. intros [k1 v1] HI. simpl.
    destruct (Z.eqb_spec k1 k0) as [->|]; [|reflexivity].
    exfalso. apply Hnotin. unfold Dict.keys.
    change k0 with (fst (k0, v1)). now apply in_map.
  - f_equal. auto.
Qed.

Lemma NoDup_keys_filter (f : Z * V -> bool) d :
  NoDup (Dict.keys d) -> NoDup (Dict.keys (filter f d)).
Proof.
  induction d as [|[k0 v0] d IH]; simpl; intros Hnd; [constructor|].
  inversion Hnd as [|? ? Hnotin Hnd']; subst.
  destruct (f (k0, v0)); simpl; [|auto].
  constructor; [|auto].
  intros HI. apply Hnotin. unfold Dict.keys in *.
  apply in_map_iff in HI as [x [Hx HI]]. apply filter_In in HI as [HI _].
  apply in_map_iff. eauto.
Qed.

(** Popping a list of keys keeps exactly the entries of the other keys. *)
Lemma fold_pop_filter (ks : list Z) d :
  NoDup (Dict.keys d) ->
  fold_left (fun r k => Dict.pop k r) ks d
  = filter (fun kv => negb (existsb (Z.eqb (fst kv)) ks)) d.
Proof.
  revert d. induction ks as [|k ks IH]; simpl; intros d Hnd.
  - symmetry. now apply filter_all.
  - rewrite IH, pop_filter by (try rewrite pop_filter; auto using NoDup_keys_filter).
    clear. induction d as [|kv d IHd]; simpl; [reflexivity|].
    destruct (Z.eqb (fst kv) k); simpl; rewrite IHd; reflexivity.
Qed.

End WithValues.
End DictFacts.

(* ------------------------------------------------------------------ *)
(** ** Facts about the stable descending sort *)

Section SortFacts.

Context {A : Type}.
Variable lt : A -> A -> bool.

Lemma insert_desc_perm x l : Permutation (insert_desc lt x l) (x :: l).
Proof.
  induction l as [|y l IH]; simpl.
  - apply Permutation_refl.
  - destruct (lt x y).
    + eapply perm_trans; [apply perm_skip, IH | apply perm_swap].
    + apply Permutation_refl.
Qed.

Lemma sort_desc_perm l : Permutation (sort_desc lt l) l.
Proof.
  induction l as [|x l IH]; simpl.
  - constructor.
  - eapply perm_trans; [apply insert_desc_perm | now apply perm_skip].
Qed.

Lemma sort_desc_length l : List.length (sort_desc lt l) = List.length l.
Proof. apply Permutation_length, sort_desc_perm. Qed.

Lemma sort_desc_In x l : In x (sort_desc lt l) <-> In x l.
Proof.
  split; apply Permutation_in;
    [apply sort_desc_perm | apply Permutation_sym, sort_desc_perm].
Qed.

Lemma sort_desc_nil l : sort_desc lt l = [] -> l = [].
Proof.
  intros H. apply Permutation_nil.
  rewrite <- H. apply sort_desc_perm.
Qed.

(** The comparison comes from a total preorder on keys. *)
Hypothesis lt_asym : forall a b, lt a b = true -> lt b a = false.
Hypothesis ge_trans :
  forall a b c, lt a b = false -> lt b c = false -> lt a c = false.

Lemma insert_desc_sorted x l :
  descending lt l -> descending lt (insert_desc lt x l).
Proof.
  unfold descending.
  induction l as [|y l IH]; simpl; intros Hs.
  - repeat constructor.
  - apply StronglySorted_inv in Hs as [Hs Hy].
    destruct (lt x y) eqn:E.
    + constructor; [auto|].
      rewrite Forall_forall in *. intros b Hb.
      apply (Permutation_in _ (insert_desc_perm x l)) in Hb as [<-|Hb]; auto.
    + constructor; [now constructor|].
      constructor; [assumption|].
      rewrite Forall_forall in *. intros b Hb. eauto.
Qed.

Lemma sort_desc_sorted l : descending lt (sort_desc lt l).
Proof.
  induction l as [|x l IH]; simpl.
  - constructor.
  - now apply insert_desc_sorted.
Qed.

End SortFacts.

Lemma Qlt_bool_false x y : Qlt_bool x y = false <-> y <= x.
Proof.
  unfold Qlt_bool. rewrite negb_false_iff. apply Qle_bool_iff.
Qed.

Lemma Qlt_bool_true x y : Qlt_bool x y = true <-> x < y.
Proof.
  unfold Qlt_bool. rewrite negb_true_iff, <- not_true_iff_false, Qle_bool_iff.
  split; [apply Qnot_le_lt | apply Qlt_not_le].
Qed.

Section KeyOrder.

Context {A : Type}.
Variable key : A -> Q.

Lemma key_lt_asym a b : key_lt key a b = true -> key_lt key b a = false.
Proof.
  unfold key_lt. rewrite Qlt_bool_true, Qlt_bool_false. apply Qlt_le_weak.
Qed.

Lemma key_ge_trans a b c :
  key_lt key a b = false -> key_lt key b c = false ->
  key_lt key a c = false.
Proof.
  unfold key_lt. rewrite !Qlt_bool_false. intros H1 H2.
  eapply Qle_trans; eassumption.
Qed.

Lemma sort_by_key_descending l :
  scores_descending (map key (sort_desc (key_lt key) l)).
Proof.
  pose proof (sort_desc_sorted (key_lt key) key_lt_asym key_ge_trans l)
    as Hs.
  unfold descending, scores_descending in *.
  induction Hs as [|a l' Hs IH Ha]; simpl; constructor; [assumption|].
  rewrite Forall_forall in *. intros q Hq.
  apply in_map_iff in Hq as [b [<- Hb]].
  apply Qlt_bool_false. now apply Ha.
Qed.

End KeyOrder.

Lemma firstn_In {A : Type} n (l : list A) x : In x (firstn n l) -> In x l.
Proof.
  intros H. rewrite <- (firstn_skipn n l). apply in_or_app. now left.
Qed.

Lemma StronglySorted_firstn {A : Type} (R : A -> A -> Prop) n l :
  StronglySorted R l -> StronglySorted R (firstn n l).
Proof.
  revert n. induction l as [|a l IH]; intros [|n] Hs; simpl;
    try constructor.
  - apply IH. now apply StronglySorted_inv in Hs.
  - apply StronglySorted_inv in Hs as [_ Ha].
    rewrite Forall_forall in *. intros x Hx. apply Ha.
    eapply firstn_In; eassumption.
Qed.

Lemma popularity_lt_asym a b :
  popularity_lt a b = true -> popularity_lt b a = false.
Proof.
  unfold popularity_lt.
  destruct (popularity a), (popularity b); try reflexivity; try discriminate.
  rewrite Qlt_bool_true, Qlt_bool_false. apply Qlt_le_weak.
Qed.

Lemma popularity_ge_trans a b c :
  popularity_lt a b = false -> popularity_lt b c = false ->
  popularity_lt a c = false.
Proof.
  unfold popularity_lt.
  destruct (popularity a), (popularity b), (popularity c);
    try reflexivity; try discriminate.
  rewrite !Qlt_bool_false. intros H1 H2. eapply Qle_trans; eassumption.
Qed.

(* ------------------------------------------------------------------ *)
(** ** The numpy helpers *)

Lemma in_enumerate {A : Type} (l : list A) i x :
  In (i, x) (enumerate l) <-> nth_error l i = Some x.
Proof.
  unfold enumerate.
  assert (H : forall s, In (i, x) (combine (seq s (List.length l)) l)
                        <-> (s <= i)%nat /\ nth_error l (i - s) = Some x).
  { induction l as [|a l IH]; intros s; simpl.
    - split; [tauto|]. intros [_ H]. now destruct (i - s)%nat.
    - rewrite IH. split.
      + intros [E|[Hle Hn]].
        * inversion E; subst. rewrite Nat.sub_diag. auto.
        * split; [lia|]. replace (i - s)%nat with (S (i - S s)) by lia.
          exact Hn.
      + intros [Hle Hn]. destruct (Nat.eq_dec s i) as [->|Hne].
        * rewrite Nat.sub_diag in Hn. simpl in Hn. left. congruence.
        * right. split; [lia|].
          replace (i - s)%nat with (S (i - S s)) in Hn by lia. exact Hn. }
  rewrite H, Nat.sub_0_r. split; [tauto | auto with arith].
Qed.

Lemma map_fst_combine {A B : Type} (l : list A) (l' : list B) :
  List.length l = List.length l' -> map fst (combine l l') = l.
Proof.
  revert l'. induction l as [|a l IH]; intros [|b l'] H; simpl;
    try reflexivity; try discriminate.
  f_equal. apply IH. simpl in H. lia.
Qed.

Lemma nth_error_combine_Some {A B : Type} (l : list A) (l' : list B) i a b :
  nth_error l i = Some a -> nth_error l' i = Some b ->
  nth_error (combine l l') i = Some (a, b).
Proof.
  revert l l'. induction i as [|i IH]; intros [|x l] [|y l']; simpl;
    try discriminate.
  - now intros [= ->] [= ->].
  - apply IH.
Qed.

Lemma traverse_map {A B : Type} (f : A -> Result B) (g : A -> B) l :
  (forall x, In x l -> f x = Ok (g x)) -> traverse f l = Ok (map g l).
Proof.
  induction l as [|a l IH]; simpl; intros H; [reflexivity|].
  rewrite (H a) by now left. rewrite IH; [reflexivity|].
  intros x Hx. apply H. now right.
Qed.

Lemma take_rows_ok (X : Matrix) indices :
  Forall (fun i => (i < List.length X)%nat) indices ->
  take_rows X indices = Ok (map (fun i => nth i X []) indices).
Proof.
  intros H. apply traverse_map. intros i Hi.
  rewrite Forall_forall in H. specialize (H i Hi).
  unfold index. destruct (nth_error X i) eqn:E.
  - f_equal. symmetry. now apply nth_error_nth.
  - apply nth_error_None in E. lia.
Qed.

Lemma traverse_enumerate (ids : list Z) (scores : list Q) :
  List.length scores = List.length ids ->
  traverse (fun im : nat * Z =>
              match index scores (fst im) with
              | Ok s => Ok (snd im, s)
              | Raise e => Raise e
              end)
           (enumerate ids)
  = Ok (combine ids scores).
Proof.
  intros Hlen.
  rewrite (traverse_map _ (fun im => (snd im, nth (fst im) scores 0))).
  - f_equal. unfold enumerate.
    assert (H : forall s pre post,
               scores = pre ++ post -> List.length pre = s ->
               List.length post = List.length ids ->
               map (fun im : nat * Z => (snd im, nth (fst im) scores 0))
                   (combine (seq s (List.length ids)) ids)
               = combine ids post).
    { clear Hlen. induction ids as [|a ids IH]; intros s pre post E Hs Hp.
      - reflexivity.
      - destruct post as [|q post]; [discriminate|]. simpl.
        f_equal.
        + f_equal. rewrite E, app_nth2 by lia.
          now replace (s - List.length pre)%nat with 0%nat by lia.
        + apply (IH (S s) (pre ++ [q]) post).
          * now rewrite <- app_assoc.
          * rewrite length_app. simpl. lia.
          * simpl in Hp. lia. }
    now apply (H 0%nat [] scores).
  - intros [i mid] Hin. apply in_enumerate in Hin. simpl.
    unfold index. destruct (nth_error scores i) eqn:E.
    + f_equal. f_equal. symmetry. now apply nth_error_nth.
    + apply nth_error_None in E.
      assert (i < List.length ids)%nat
        by (apply nth_error_Some; congruence).
      lia.
Qed.

Lemma matmul_ok (sims : Matrix) (w : list Q) :
  Forall (fun r => List.length r = List.length w) sims ->
  matmul sims w = Ok (map (fun r => dot r w) sims).
Proof.
  intros H. unfold matmul.
  replace (forallb _ sims) with true; [reflexivity|].
  symmetry. apply forallb_forall. rewrite Forall_forall in H.
  intros r Hr. apply Nat.eqb_eq. auto.
Qed.

Lemma matmul_mismatch (r : Row) (sims : Matrix) (w : list Q) :
  List.length r <> List.length w ->
  matmul (r :: sims) w = Raise ValueError.
Proof.
  intros H. unfold matmul. simpl.
  apply Nat.eqb_neq in H. now rewrite H.
Qed.

Lemma dot_weighted (f : Row -> Q) (g : Q -> Q) (Y : list Row) (ws : list Q) :
  dot (map f Y) (map g ws)
  = Qsum (map (fun yw => f (fst yw) * g (snd yw)) (combine Y ws)).
Proof.
  unfold dot. f_equal. revert ws.
  induction Y as [|y Y IH]; intros [|v ws]; simpl; try reflexivity.
  now rewrite IH.
Qed.

(* ------------------------------------------------------------------ *)
(** ** The positions of the liked movies *)

Lemma liked_indices_spec ids liked i :
  In i (liked_indices ids liked) ->
  exists mid, In mid liked /\ nth_error ids i = Some mid.
Proof.
  unfold liked_indices. intros H.
  apply in_flat_map in H as [mid [Hmid Hi]].
  exists mid. split; [assumption|].
  destruct (Dict.get mid _) eqn:E; [|contradiction].
  destruct Hi as [->|[]].
  rewrite DictFacts.get_of_items in E.
  apply DictFacts.get_Some_In in E. apply in_rev in E.
  apply in_map_iff in E as [[j m] [Heq Hin]].
  simpl in Heq. inversion Heq; subst.
  now apply in_enumerate.
Qed.

Lemma liked_indices_bound ids liked :
  Forall (fun i => (i < List.length ids)%nat) (liked_indices ids liked).
Proof.
  apply Forall_forall. intros i Hi.
  apply liked_indices_spec in Hi as [mid [_ Hn]].
  apply nth_error_Some. congruence.
Qed.

(** A liked identifier that the model knows yields a position. *)
Lemma liked_indices_nonempty ids liked mid :
  In mid liked -> In mid ids -> liked_indices ids liked <> [].
Proof.
  intros Hl Hi Hnil.
  assert (Hget : Dict.get mid
                   (Dict.of_items
                      (map (fun im : nat * Z => (snd im, fst im))
                           (enumerate ids))) <> None).
  { intros Hn. apply DictFacts.get_None_keys in Hn. apply Hn.
    apply DictFacts.keys_of_items_In.
    apply In_nth_error in Hi as [i Hi]. apply in_enumerate in Hi.
    rewrite map_map. simpl.
    change mid with (snd (i, mid)). now apply in_map. }
  unfold liked_indices in Hnil.
  assert (Hin : forall i, ~ In i (flat_map
            (fun mid0 => match Dict.get mid0
                (Dict.of_items (map (fun im : nat * Z => (snd im, fst im))
                                    (enumerate ids))) with
                         | Some i => [i] | None => [] end) liked))
    by (rewrite Hnil; simpl; tauto).
  destruct (Dict.get mid _) eqn:E; [|congruence].
  apply (Hin n). apply in_flat_map. exists mid. split; [assumption|].
  rewrite E. now left.
Qed.

(* ------------------------------------------------------------------ *)
(** ** The similarity scorer *)

Section ScoresFacts.

Variable sk : Sklearn.

Ltac run_scores :=
  unfold scores_for_movies, bind, get_self, lift, ret, tick_similarity;
  simpl.

(** Every mapping the scorer returns is empty or a comprehension from
    which the liked identifiers were popped. *)
Lemma scores_for_movies_inv liked weights w r w' :
  scores_for_movies sk liked weights w = (Ok r, w') ->
  r = Dict.empty
  \/ exists result : list (Z * Q),
      r = fold_left (fun r mid => Dict.pop mid r) liked
                    (Dict.of_items result).
Proof.
  run_scores.
  destruct (tfidf_matrix (recommender w)) as [X|];
    [|intros [= <- _]; now left].
  destruct (is_empty (movie_ids (recommender w)));
    [intros [= <- _]; now left|].
  destruct (is_empty (liked_indices _ liked));
    [intros [= <- _]; now left|].
  destruct (take_rows X _) as [Y|e]; [|discriminate].
  destruct (matmul _ _) as [scores|e]; [|discriminate].
  destruct (traverse _ _) as [result|e]; [|discriminate].
  intros [= <- _]. right. now exists result.
Qed.

Lemma scores_for_movies_as_filter liked weights w r w' :
  scores_for_movies sk liked weights w = (Ok r, w') ->
  exists d : Dict.t Q,
    NoDup (Dict.keys d)
    /\ r = filter (fun kv => not_liked liked (fst kv)) d.
Proof.
  intros H. apply scores_for_movies_inv in H as [->|[result ->]].
  - exists []. split; [constructor | reflexivity].
  - exists (Dict.of_items result).
    split; [apply DictFacts.NoDup_of_items|].
    apply DictFacts.fold_pop_filter, DictFacts.NoDup_of_items.
Qed.

Lemma scores_for_movies_keys_NoDup liked weights w r w' :
  scores_for_movies sk liked weights w = (Ok r, w') ->
  NoDup (Dict.keys r).
Proof.
  intros H. apply scores_for_movies_as_filter in H as [d [Hd ->]].
  now apply DictFacts.NoDup_keys_filter.
Qed.

(** Without a matrix, or without identifiers, the result is empty. *)
Lemma scores_for_movies_unfit liked weights w :
  tfidf_matrix (recommender w) = None \/ movie_ids (recommender w) = [] ->
  scores_for_movies sk liked weights w = (Ok Dict.empty, w).
Proof.
  run_scores. intros [H|H]; rewrite H; [reflexivity|].
  now destruct (tfidf_matrix (recommender w)).
Qed.

(** When no liked identifier is known to the model, the result is
    empty. *)
Lemma scores_for_movies_unknown liked weights w :
  (forall mid, In mid liked -> ~ In mid (movie_ids (recommender w))) ->
  scores_for_movies sk liked weights w = (Ok Dict.empty, w).
Proof.
  intros Hnone. run_scores.
  destruct (tfidf_matrix (recommender w)) as [X|]; [|reflexivity].
  destruct (is_empty (movie_ids (recommender w))); [reflexivity|].
  destruct (liked_indices (movie_ids (recommender w)) liked) as [|i l] eqn:E;
    [reflexivity|].
  exfalso.
  destruct (liked_indices_spec (movie_ids (recommender w)) liked i)
    as [mid [Hl Hn]]; [rewrite E; now left|].
  apply (Hnone mid Hl). eapply nth_error_In; eassumption.
Qed.

(** On a fitted model, with at least one liked identifier found and one
    weight per found identifier, the scorer returns: each identifier that
    is not liked is mapped to the weighted average of its row. *)
Lemma scores_for_movies_fitted liked weights w X :
  let ids := movie_ids (recommender w) in
  let ws := match weights with
            | None => repeat 1 (List.length (liked_indices ids liked))
            | Some ws => ws
            end in
  fitted (recommender w) X ->
  liked_indices ids liked <> [] ->
  List.length ws = List.length (liked_indices ids liked) ->
  scores_for_movies sk liked weights w
  = (Ok (filter (fun kv => not_liked liked (fst kv))
           (combine ids
              (map (fun x => weighted_average sk x (liked_rows X ids liked) ws)
                   X))),
     after_similarity w).
Proof.
  destruct w as [[ids M] fc sc]. unfold fitted. simpl.
  intros (HX & Hlen & Hne & Hnd) Hidx Hws. subst M.
  run_scores.
  rewrite (is_empty_false ids Hne), (is_empty_false _ Hidx).
  rewrite take_rows_ok by (rewrite Hlen; apply liked_indices_bound).
  fold (liked_rows X ids liked).
  rewrite matmul_ok.
  2:{ unfold cosine_similarity. apply Forall_forall. intros r Hr.
      apply in_map_iff in Hr as [x [<- _]].
      rewrite !length_map. unfold liked_rows. rewrite length_map.
      now rewrite Hws. }
  rewrite traverse_enumerate
    by (unfold cosine_similarity; rewrite !length_map; exact Hlen).
  unfold after_similarity. f_equal. f_equal.
  rewrite DictFacts.of_items_NoDup.
  2:{ rewrite map_fst_combine; [exact Hnd|].
      unfold cosine_similarity. rewrite !length_map. now rewrite Hlen. }
  rewrite DictFacts.fold_pop_filter.
  2:{ unfold Dict.keys. rewrite map_fst_combine; [exact Hnd|].
      unfold cosine_similarity. rewrite !length_map. now rewrite Hlen. }
  unfold cosine_similarity. rewrite !map_map.
  f_equal. f_equal. apply map_ext. intros x.
  unfold weighted_average. apply dot_weighted.
Qed.

(** The defect: weights supplied, and not one per found identifier. *)
Lemma scores_for_movies_mismatch liked ws w X :
  let ids := movie_ids (recommender w) in
  fitted (recommender w) X ->
  liked_indices ids liked <> [] ->
  List.length ws <> List.length (liked_indices ids liked) ->
  scores_for_movies sk liked (Some ws) w
  = (Raise ValueError, after_similarity w).
Proof.
  destruct w as [[ids M] fc sc]. unfold fitted. simpl.
  intros (HX & Hlen & Hne & Hnd) Hidx Hws. subst M.
  run_scores.
  rewrite (is_empty_false ids Hne), (is_empty_false _ Hidx).
  rewrite take_rows_ok by (rewrite Hlen; apply liked_indices_bound).
  destruct X as [|x X]; [destruct ids; [congruence | discriminate]|].
  unfold cosine_similarity. simpl map at 1.
  rewrite matmul_mismatch; [reflexivity|].
  rewrite !length_map. auto.
Qed.

End ScoresFacts.

(* ------------------------------------------------------------------ *)
(** ** Fitting and the model cache *)

Section FitFacts.

Variable sk : Sklearn.

Ltac run_fit :=
  unfold fit, bind, tick_fit, set_movie_ids, set_tfidf_matrix, lift, ret;
  simpl.

Lemma fit_nil w :
  fit sk [] w
  = (Ok tt, mkWorld new_recommender (S (fit_calls w)) (similarity_calls w)).
Proof. reflexivity. Qed.

(** On a catalog that is not empty, [fit] stores the identifiers first
    and the matrix only when [fit_transform] returns one. *)
Lemma fit_cons m movies w :
  fit sk (m :: movies) w
  = match fit_transform sk (map _build_corpus_row (m :: movies)) with
    | Ok X =>
        (Ok tt,
         mkWorld (mkRecommender (map id (m :: movies)) (Some X))
                 (S (fit_calls w)) (similarity_calls w))
    | Raise e =>
        (Raise e,
         mkWorld (mkRecommender (map id (m :: movies))
                                (tfidf_matrix (recommender w)))
                 (S (fit_calls w)) (similarity_calls w))
    end.
Proof.
  run_fit. now destruct (fit_transform sk _).
Qed.

Lemma fit_movie_ids movies w :
  movie_ids (recommender (snd (fit sk movies w))) = map id movies.
Proof.
  destruct movies as [|m movies]; [reflexivity|].
  rewrite fit_cons. now destruct (fit_transform sk _).
Qed.

Lemma fit_transform_spec corpus :
  fit_transform sk corpus
  = if is_empty (count_vocab (map (analyze sk) corpus))
    then Raise ValueError
    else Ok (map (tfidf_row sk (map (analyze sk) corpus)
                    (limit_features (map (analyze sk) corpus)
                       (count_vocab (map (analyze sk) corpus))))
                 (map (analyze sk) corpus)).
Proof. reflexivity. Qed.

(** The vocabulary is empty exactly when no document has a term. *)
Lemma count_vocab_nil docs :
  count_vocab docs = [] <-> Forall (fun d => d = []) docs.
Proof.
  unfold count_vocab. split.
  - intros H. apply sort_desc_nil in H.
    assert (Hc : concat docs = []).
    { destruct (concat docs) as [|t l] eqn:E; [reflexivity|].
      assert (Hin : In t (nodup string_dec (concat docs)))
        by (apply nodup_In; rewrite E; now left).
      rewrite E, H in Hin. destruct Hin. }
    clear H. induction docs as [|d docs IH]; [constructor|].
    simpl in Hc. apply app_eq_nil in Hc as [-> Hc]. constructor; auto.
  - intros H. replace (concat docs) with (@nil string); [reflexivity|].
    induction H as [|d docs -> _ IH]; simpl; auto.
Qed.

Lemma fit_returns_iff movies w :
  fst (fit sk movies w) = Ok tt
  <-> movies = [] \/ count_vocab (catalog_documents sk movies) <> [].
Proof.
  destruct movies as [|m movies].
  - rewrite fit_nil. simpl. tauto.
  - rewrite fit_cons, fit_transform_spec. unfold catalog_documents.
    destruct (count_vocab _) as [|t v]; simpl.
    + split; [discriminate | intros [H|H]; congruence].
    + split; [right; discriminate | reflexivity].
Qed.

Lemma fit_matrix movies w :
  movies <> [] ->
  fst (fit sk movies w) = Ok tt ->
  tfidf_matrix (recommender (snd (fit sk movies w)))
  = Some (map (document_vector sk movies) movies).
Proof.
  destruct movies as [|m movies]; [congruence|]. intros _.
  rewrite fit_cons, fit_transform_spec.
  destruct (is_empty _); [discriminate|]. intros _. simpl snd.
  unfold tfidf_matrix at 1, recommender at 1. f_equal.
  unfold document_vector, catalog_vocabulary, catalog_documents.
  now rewrite !map_map.
Qed.

(** An item whose document has no term gets a row of zeros. *)
Lemma termless_row_zero docs vocab :
  zero_row (tfidf_row sk docs vocab []).
Proof.
  unfold tfidf_row, normalize, term_count. simpl count_occ.
  set (r := map _ vocab).
  assert (Hr : zero_row r).
  { unfold zero_row, r. apply Forall_forall. intros x Hx.
    apply in_map_iff in Hx as [t [<- _]]. simpl. apply Qmult_0_l. }
  destruct (Qeq_bool _ 0); [assumption|].
  unfold zero_row in *. rewrite Forall_forall in *. intros x Hx.
  apply in_map_iff in Hx as [y [<- Hy]]. rewrite (Hr y Hy).
  unfold Qdiv. apply Qmult_0_l.
Qed.

Lemma analyze_textless m : textless m -> analyze sk (_build_corpus_row m) = [].
Proof.
  intros (Ht & Hg & Ho). unfold _build_corpus_row.
  rewrite Ht, Hg, Ho. reflexivity.
Qed.

(** [ensure_model] on a cached model of the right size does nothing. *)
Lemma ensure_model_cached db w X :
  tfidf_matrix (recommender w) = Some X ->
  List.length (movie_ids (recommender w)) = List.length (movies db) ->
  ensure_model sk db w = (Ok (recommender w), w).
Proof.
  intros HX Hlen. unfold ensure_model, bind, get_self, ret. simpl.
  unfold query_movies_all. rewrite HX, Hlen, Nat.eqb_refl. reflexivity.
Qed.

(** Otherwise it refits on the whole catalog. *)
Lemma ensure_model_refit db w :
  tfidf_matrix (recommender w) = None
  \/ List.length (movie_ids (recommender w)) <> List.length (movies db) ->
  ensure_model sk db w
  = match fit sk (movies db) w with
    | (Ok _, w') => (Ok (recommender w'), w')
    | (Raise e, w') => (Raise e, w')
    end.
Proof.
  intros H. unfold ensure_model, bind, get_self, ret. simpl.
  unfold query_movies_all.
  replace (_ || _) with true.
  - destruct (fit sk (movies db) w) as [[[]|e] w']; reflexivity.
  - symmetry. destruct H as [->|H]; [reflexivity|].
    apply Nat.eqb_neq in H. rewrite H. apply orb_true_r.
Qed.

(** After [ensure_model] returned on a catalog that is not empty, the
    model has a matrix and as many identifiers as the catalog has
    movies. *)
Lemma ensure_model_post db w r w' :
  movies db <> [] ->
  ensure_model sk db w = (Ok r, w') ->
  r = recommender w'
  /\ (exists X, tfidf_matrix r = Some X)
  /\ List.length (movie_ids r) = List.length (movies db).
Proof.
  intros Hne H.
  destruct (tfidf_matrix (recommender w)) as [X|] eqn:EX.
  - destruct (Nat.eq_dec (List.length (movie_ids (recommender w)))
                         (List.length (movies db))) as [Hlen|Hlen].
    + rewrite (ensure_model_cached db w X EX Hlen) in H.
      inversion H; subst. eauto.
    + rewrite ensure_model_refit in H by now right.
      pose proof (fit_movie_ids (movies db) w) as Hids.
      pose proof (fit_matrix (movies db) w Hne) as HM.
      destruct (fit sk (movies db) w) as [[[]|e] w1]; [|discriminate].
      inversion H; subst. simpl in *.
      rewrite Hids, length_map, HM by reflexivity. eauto.
  - rewrite ensure_model_refit in H by now left.
    pose proof (fit_movie_ids (movies db) w) as Hids.
    pose proof (fit_matrix (movies db) w Hne) as HM.
    destruct (fit sk (movies db) w) as [[[]|e] w1]; [|discriminate].
    inversion H; subst. simpl in *.
    rewrite Hids, length_map, HM by reflexivity. eauto.
Qed.

(** A second call with an unchanged, positive number of movies returns
    the cached model and leaves the state, counters included, as it
    is. *)
Lemma ensure_model_twice db db' w r w' :
  movies db <> [] ->
  List.length (movies db') = List.length (movies db) ->
  ensure_model sk db w = (Ok r, w') ->
  ensure_model sk db' w' = (Ok r, w').
Proof.
  intros Hne Hlen H.
  apply ensure_model_post in H as (-> & [X HX] & Hl); [|assumption].
  apply (ensure_model_cached db' w' X HX). congruence.
Qed.

End FitFacts.

(* ------------------------------------------------------------------ *)
(** ** Lookups by identifier *)

Lemma get_map_find {B : Type} (f : Movie -> B) (l : list Movie) (k : Z) :
  Dict.get k (map (fun m => (id m, f m)) l)
  = option_map f (find (fun m => Z.eqb k (id m)) l).
Proof.
  induction l as [|a l IH]; simpl; [reflexivity|].
  destruct (Z.eqb k (id a)); [reflexivity | exact IH].
Qed.

Lemma find_filter_id (q : Z -> bool) (k : Z) (l : list Movie) :
  find (fun m => Z.eqb k (id m)) (filter (fun m => q (id m)) l)
  = if q k then find (fun m => Z.eqb k (id m)) l else None.
Proof.
  induction l as [|a l IH]; simpl.
  - now destruct (q k).
  - destruct (Z.eqb_spec k (id a)) as [Heq|Hne].
    + rewrite <- Heq. destruct (q k) eqn:E; simpl.
      * rewrite <- Heq, Z.eqb_refl. reflexivity.
      * exact IH.
    + destruct (q (id a)); simpl; [|exact IH].
      destruct (Z.eqb_spec k (id a)); [contradiction | exact IH].
Qed.

Lemma lookup_movie_id db mid m :
  lookup_movie db mid = Some m -> id m = mid /\ In m (movies db).
Proof.
  unfold lookup_movie. intros H. apply find_some in H as [Hin Heq].
  apply Z.eqb_eq in Heq. split; [congruence | now apply in_rev].
Qed.

(** The dictionary of step 6 knows an identifier exactly when it was asked
    for and the catalog has it. *)
Lemma id_to_movie_get db ids mid :
  Dict.get mid
    (Dict.of_items (map (fun m => (id m, m)) (query_movies_in db ids)))
  = if existsb (Z.eqb mid) ids then lookup_movie db mid else None.
Proof.
  rewrite DictFacts.get_of_items, <- map_rev.
  unfold query_movies_in. rewrite <- filter_rev.
  rewrite (get_map_find (fun m => m)).
  rewrite (find_filter_id (fun i => existsb (Z.eqb i) ids)).
  unfold lookup_movie.
  destruct (existsb _ ids); [|reflexivity].
  now destruct (find _ _).
Qed.

(** The popularity the blend reads for an identifier. *)
Lemma pop_map_get db mid :
  Dict.get_default mid 0
    (Dict.of_items
       (map (fun m => (id m, popularity_or_zero m)) (query_movies_all db)))
  = match lookup_movie db mid with
    | Some m => popularity_or_zero m
    | None => 0
    end.
Proof.
  unfold Dict.get_default.
  rewrite DictFacts.get_of_items, <- map_rev, get_map_find.
  unfold lookup_movie, query_movies_all. now destruct (find _ _).
Qed.

(* ------------------------------------------------------------------ *)
(** ** Blending and resolution *)

Lemma flat_map_ext_in {A B : Type} (f g : A -> list B) (l : list A) :
  (forall x, In x l -> f x = g x) -> flat_map f l = flat_map g l.
Proof.
  induction l as [|a l IH]; simpl; intros H; [reflexivity|].
  rewrite (H a) by now left. f_equal. apply IH. intros x Hx. apply H. now right.
Qed.

Lemma existsb_eqb_In (k : Z) (l : list Z) :
  existsb (Z.eqb k) l = true <-> In k l.
Proof.
  rewrite existsb_exists. split.
  - intros [x [Hx Heq]]. apply Z.eqb_eq in Heq. now subst.
  - intros H. exists k. split; [assumption | apply Z.eqb_refl].
Qed.

Lemma resolve_top_length db limit blended :
  (List.length (resolve_top db limit blended) <= limit)%nat.
Proof.
  unfold resolve_top.
  assert (H : forall l : list (Z * Q),
             (List.length
                (flat_map (fun ms => match lookup_movie db (fst ms) with
                                     | Some m => [(m, snd ms)]
                                     | None => []
                                     end) l) <= List.length l)%nat).
  { induction l as [|a l IH]; simpl; [lia|].
    rewrite length_app. destruct (lookup_movie db (fst a)); simpl; lia. }
  etransitivity; [apply H | apply firstn_le_length].
Qed.

(** Steps 6 and 7 of the code compute the first [limit] blended entries
    that resolve: nothing beyond position [limit] can enter. *)
Lemma resolve_eq db limit blended :
  NoDup (map fst blended) ->
  resolve db limit blended = resolve_top db limit blended.
Proof.
  intros Hnd. unfold resolve.
  set (top := firstn limit blended).
  set (g := fun ms : Z * Q => match Dict.get (fst ms) _ with
                              | Some m => [(m, snd ms)]
                              | None => []
                              end).
  rewrite <- (firstn_skipn limit blended) at 1. fold top.
  rewrite flat_map_app.
  rewrite <- (firstn_skipn limit blended), map_app in Hnd. fold top in Hnd.
  assert (Htop : flat_map g top = resolve_top db limit blended).
  { unfold resolve_top. fold top. apply flat_map_ext_in.
    intros ms Hms. unfold g. rewrite id_to_movie_get.
    replace (existsb _ _) with true; [reflexivity|].
    symmetry. apply existsb_eqb_In. now apply in_map. }
  assert (Hrest : flat_map g (skipn limit blended) = []).
  { rewrite (flat_map_ext_in g (fun _ => [])).
    - clear. induction (skipn limit blended); simpl; auto.
    - intros ms Hms. unfold g. rewrite id_to_movie_get.
      replace (existsb _ _) with false; [reflexivity|].
      symmetry. apply not_true_iff_false. rewrite existsb_eqb_In.
      intros Hin. apply (NoDup_app_disjoint _ _ _ Hnd Hin).
      now apply in_map. }
  rewrite Htop, Hrest, app_nil_r.
  apply firstn_all2, resolve_top_length.
Qed.

Lemma resolve_top_In db limit blended m sc :
  In (m, sc) (resolve_top db limit blended) ->
  exists mid, In (mid, sc) (firstn limit blended)
              /\ lookup_movie db mid = Some m.
Proof.
  unfold resolve_top. intros H.
  apply in_flat_map in H as [[mid s] [Hin H]]. simpl in H.
  destruct (lookup_movie db mid) eqn:E; [|contradiction].
  destruct H as [H|[]]. inversion H; subst. eauto.
Qed.

Lemma resolve_top_descending db limit blended :
  scores_descending (map snd blended) ->
  scores_descending (map snd (resolve_top db limit blended)).
Proof.
  intros Hs. unfold resolve_top.
  assert (Hs' : scores_descending (map snd (firstn limit blended)))
    by (rewrite <- firstn_map; now apply StronglySorted_firstn).
  clear Hs. induction (firstn limit blended) as [|a l IH]; simpl.
  - constructor.
  - simpl in Hs'. apply StronglySorted_inv in Hs' as [Hl Ha].
    rewrite map_app.
    assert (Hall : Forall (fun b => b <= snd a)
                     (map snd (flat_map
                        (fun ms => match lookup_movie db (fst ms) with
                                   | Some m => [(m, snd ms)]
                                   | None => []
                                   end) l))).
    { rewrite Forall_forall in *. intros q Hq.
      apply in_map_iff in Hq as [[m sc] [<- Hin]].
      apply in_flat_map in Hin as [ms [Hms Hin]].
      destruct (lookup_movie db (fst ms)); [|contradiction].
      destruct Hin as [Hin|[]]. inversion Hin; subst. simpl.
      apply Ha. now apply in_map. }
    destruct (lookup_movie db (fst a)); simpl; [|now apply IH].
    constructor; [now apply IH | exact Hall].
Qed.

Section BlendFacts.

Variable db : Session.
Variable score_map : Dict.t Q.

Lemma blend_keys_perm :
  Permutation (map fst (blend db score_map)) (Dict.keys score_map).
Proof.
  unfold blend, Dict.items.
  eapply perm_trans; [apply Permutation_map, sort_desc_perm|].
  rewrite map_map. simpl. apply Permutation_refl.
Qed.

Lemma blend_keys_NoDup :
  NoDup (Dict.keys score_map) -> NoDup (map fst (blend db score_map)).
Proof.
  intros H. eapply Permutation_NoDup; [|exact H].
  apply Permutation_sym, blend_keys_perm.
Qed.

Lemma blend_descending : scores_descending (map snd (blend db score_map)).
Proof. apply sort_by_key_descending. Qed.

Lemma blend_In mid sc :
  In (mid, sc) (blend db score_map) ->
  exists s, In (mid, s) score_map
            /\ sc = s * 0.9
                    + 0.1 * match lookup_movie db mid with
                            | Some m => popularity_or_zero m
                            | None => 0
                            end.
Proof.
  unfold blend. intros H. apply sort_desc_In in H.
  apply in_map_iff in H as [[k s] [Heq Hin]]. simpl in Heq.
  inversion Heq; subst. exists s. split; [assumption|].
  now rewrite pop_map_get.
Qed.

End BlendFacts.

(* ------------------------------------------------------------------ *)
(** ** The popularity ranking *)

Lemma popularity_or_zero_value m :
  popularity_or_zero m == match popularity m with Some p => p | None => 0 end.
Proof.
  unfold popularity_or_zero. destruct (popularity m) as [p|]; [|reflexivity].
  destruct (Qeq_bool p 0) eqn:E; [|reflexivity].
  apply Qeq_bool_iff in E. now rewrite E.
Qed.

Lemma popularity_ranking_length db limit :
  (List.length (popularity_ranking db limit) <= limit)%nat.
Proof.
  unfold popularity_ranking, query_movies_popular.
  rewrite length_map. apply firstn_le_length.
Qed.

Lemma popularity_sorted db :
  descending popularity_lt (sort_desc popularity_lt (movies db)).
Proof.
  apply sort_desc_sorted;
    [exact popularity_lt_asym | exact popularity_ge_trans].
Qed.

Lemma popularity_ranking_descending db limit :
  popularity_nonneg db ->
  scores_descending (map snd (popularity_ranking db limit)).
Proof.
  intros Hnn. unfold popularity_ranking, query_movies_popular.
  rewrite map_map. simpl. rewrite <- firstn_map.
  apply StronglySorted_firstn.
  assert (Hnn' : Forall (fun m => match popularity m with
                                  | Some p => 0 <= p
                                  | None => True
                                  end)
                        (sort_desc popularity_lt (movies db))).
  { unfold popularity_nonneg in Hnn. rewrite Forall_forall in *.
    intros m Hm. apply Hnn. now apply sort_desc_In in Hm. }
  pose proof (popularity_sorted db) as Hs. unfold descending in Hs.
  induction Hs as [|a l Hs IH Ha]; simpl; [constructor|].
  inversion Hnn' as [|? ? Hpa Hl]; subst.
  constructor; [now apply IH|].
  rewrite Forall_forall in *. intros q Hq.
  apply in_map_iff in Hq as [b [<- Hb]].
  specialize (Ha b Hb). specialize (Hl b Hb).
  rewrite !popularity_or_zero_value.
  unfold popularity_lt in Ha.
  destruct (popularity a) as [pa|], (popularity b) as [pb|].
  - now apply Qlt_bool_false.
  - assumption.
  - discriminate.
  - apply Qle_refl.
Qed.

(* ------------------------------------------------------------------ *)
(** ** The branches of [recommend_for_user] *)

Section RecommendFacts.

Variable sk : Sklearn.

Lemma recommend_cold_start db uid limit w :
  query_ratings_of db uid = [] ->
  recommend_for_user sk db uid limit w
  = (Ok (popularity_ranking db limit), w).
Proof.
  intros H. unfold recommend_for_user. rewrite H. reflexivity.
Qed.

Lemma recommend_with_ratings db uid limit w r w1 score_map w2 :
  query_ratings_of db uid <> [] ->
  ensure_model sk db w = (Ok r, w1) ->
  scores_for_movies sk (liked_ids_of db uid) (Some (weights_of db uid)) w1
  = (Ok score_map, w2) ->
  recommend_for_user sk db uid limit w
  = (Ok (if is_empty score_map
         then popularity_ranking db limit
         else resolve db limit (blend db score_map)),
     w2).
Proof.
  intros Hr He Hs. unfold recommend_for_user.
  rewrite (is_empty_false _ Hr). unfold bind.
  rewrite He. fold (liked_ids_of db uid) (weights_of db uid).
  rewrite Hs. now destruct (is_empty score_map).
Qed.

End RecommendFacts.

(* ------------------------------------------------------------------ *)
(** ** Properties of the similarity scorer *)

Lemma liked_indices_complete ids liked mid j :
  NoDup ids -> In mid liked -> nth_error ids j = Some mid ->
  In j (liked_indices ids liked).
Proof.
  intros Hnd Hl Hn. unfold liked_indices.
  apply in_flat_map. exists mid. split; [assumption|].
  replace (Dict.get mid _) with (Some j); [now left|].
  symmetry. rewrite DictFacts.get_of_items.
  apply DictFacts.In_get.
  - unfold Dict.keys. rewrite map_rev, map_map. simpl.
    apply NoDup_rev. unfold enumerate.
    replace (map (fun x : nat * Z => snd x) (combine (seq 0 (List.length ids)) ids))
      with ids; [assumption|].
    clear. generalize 0%nat. induction ids as [|a ids IH]; intros s; simpl;
      [reflexivity | f_equal; apply IH].
  - apply -> in_rev. apply in_map_iff. exists (j, mid).
    split; [reflexivity | now apply in_enumerate].
Qed.

Lemma Qsum_div (ws : list Q) (d : Q) :
  Qsum (map (fun v => v / d) ws) == Qsum ws / d.
Proof.
  induction ws as [|v ws IH]; simpl.
  - unfold Qdiv. now rewrite Qmult_0_l.
  - rewrite IH. unfold Qdiv. now rewrite Qmult_plus_distr_l.
Qed.

Lemma Qsum_zero (ws : list Q) : Forall (fun v => v == 0) ws -> Qsum ws == 0.
Proof.
  induction 1 as [|v ws Hv _ IH]; simpl; [reflexivity|].
  rewrite Hv, IH. reflexivity.
Qed.

(* ------------------------------------------------------------------ *)
(** ** What the vectorizer computes *)

Lemma Qsum_map_ext {A : Type} (f g : A -> Q) (l : list A) :
  (forall x, f x == g x) -> Qsum (map f l) == Qsum (map g l).
Proof.
  intros H. induction l as [|x l IH]; simpl; [reflexivity|].
  now rewrite (H x), IH.
Qed.

Lemma Qsum_map_scale {A : Type} (f : A -> Q) (c : Q) (l : list A) :
  Qsum (map (fun x => f x * c) l) == Qsum (map f l) * c.
Proof.
  induction l as [|x l IH]; simpl; [ring|]. rewrite IH. ring.
Qed.

Lemma dot_self (r : Row) : dot r r = Qsum (map (fun x => x * x) r).
Proof.
  unfold dot. f_equal. induction r as [|x r IH]; simpl; [reflexivity|].
  now rewrite IH.
Qed.

(** A row of zeros is left as it is by the normalisation. *)
Lemma normalize_zero_row (sk : Sklearn) (r : Row) :
  Qsum (map (fun x => x * x) r) == 0 -> normalize sk r = r.
Proof.
  intros H. unfold normalize.
  now rewrite (proj2 (Qeq_bool_iff _ _) H).
Qed.

(** Any other row is scaled to L2 norm 1, wherever the square root
    supplied is one. *)
Lemma normalize_unit_norm (sk : Sklearn) (r : Row) :
  let s := Qsum (map (fun x => x * x) r) in
  ~ s == 0 ->
  sqrt sk s * sqrt sk s == s ->
  Qsum (map (fun x => x * x) (normalize sk r)) == 1.
Proof.
  intros s Hs Hq. unfold normalize. fold s.
  destruct (Qeq_bool s 0) eqn:E; [now apply Qeq_bool_iff in E|].
  rewrite map_map.
  rewrite (Qsum_map_ext _ (fun x => x * x * / (sqrt sk s * sqrt sk s))).
  - rewrite Qsum_map_scale. fold s. rewrite Hq. now apply Qmult_inv_r.
  - intros x. assert (Hn : ~ sqrt sk s == 0).
    { intros H0. apply Hs. rewrite <- Hq, H0. ring. }
    field. exact Hn.
Qed.

(** The similarity of a row that is not zero to itself is 1. *)
Lemma cosine_self (sk : Sklearn) (x : Row) :
  let s := Qsum (map (fun v => v * v) x) in
  ~ s == 0 ->
  sqrt sk s * sqrt sk s == s ->
  cosine sk x x == 1.
Proof.
  intros s Hs Hq. unfold cosine. rewrite dot_self.
  now apply normalize_unit_norm.
Qed.

(** The similarity to a row of zeros is 0. *)
Lemma cosine_zero_row (sk : Sklearn) (x y : Row) :
  Forall (fun v => v = 0) y -> cosine sk x y == 0.
Proof.
  intros Hy. unfold cosine.
  assert (Hn : normalize sk y = y).
  { apply normalize_zero_row. clear x.
    induction Hy as [|v y Hv _ IH]; simpl; [reflexivity|].
    rewrite Hv, IH. reflexivity. }
  rewrite Hn. unfold dot. generalize (normalize sk x) as x'. clear Hn.
  induction Hy as [|v y Hv _ IH]; intros [|a x']; simpl; try reflexivity.
  rewrite Hv, IH. ring.
Qed.

(** On the sample: the row (3, 4) has norm 5; two rows with the same
    entries in another order are at similarity 24/25, two rows without a
    common entry at similarity 0. *)
Lemma cosine_on_sample :
  normalize Sample.sklearn [3; 4] = [3 # 5; 4 # 5]
  /\ cosine Sample.sklearn [3; 4] [3; 4] == 1
  /\ cosine Sample.sklearn [3; 4] [4; 3] == 24 # 25
  /\ cosine Sample.sklearn [1; 0] [0; 1] == 0.
Proof. repeat split; vm_compute; reflexivity. Qed.

(** A vocabulary of at most [max_features] terms is kept whole; a larger
    one loses terms only, and keeps at most [max_features] of them when
    its terms are distinct. *)
Lemma limit_features_small (docs : list (list string)) (vocab : list string) :
  (N.of_nat (List.length vocab) <= max_features)%N ->
  limit_features docs vocab = vocab.
Proof.
  intros H. unfold limit_features.
  destruct (N.of_nat (List.length vocab) <=? max_features)%N eqn:E;
    [reflexivity|].
  apply N.leb_gt in E. exfalso. revert H E. generalize max_features.
  intros n H E. lia.
Qed.

Lemma limit_features_incl (docs : list (list string)) (vocab : list string)
  (t : string) :
  In t (limit_features docs vocab) -> In t vocab.
Proof.
  unfold limit_features.
  destruct (N.of_nat (List.length vocab) <=? max_features)%N;
    [exact (fun H => H)|].
  generalize (N.to_nat max_features). intros n H.
  apply filter_In in H. exact (proj1 H).
Qed.

Lemma limit_features_top (docs : list (list string)) (vocab : list string)
  (t : string) :
  (max_features < N.of_nat (List.length vocab))%N ->
  In t (limit_features docs vocab)
  <-> In t (firstn (N.to_nat max_features)
              (sort_desc
                 (fun a b =>
                    (term_frequency docs a <? term_frequency docs b)%nat)
                 vocab)).
Proof.
  intros H. unfold limit_features.
  destruct (N.of_nat (List.length vocab) <=? max_features)%N eqn:E.
  { apply N.leb_le in E. exfalso. revert H E. generalize max_features.
    intros n H E. lia. }
  clear E H. generalize (N.to_nat max_features). intros n.
  rewrite filter_In. unfold string_mem. rewrite existsb_exists. split.
  - intros [_ [u [Hu E]]]. apply String.eqb_eq in E. now subst u.
  - intros Hin. split.
    + apply firstn_In in Hin. now apply sort_desc_In in Hin.
    + exists t. split; [exact Hin | apply String.eqb_refl].
Qed.

(** The weight of a term the document does not contain is 0. *)
Lemma tfidf_row_absent (sk : Sklearn) (docs : list (list string))
  (vocab : list string) (doc : list string) (i : nat) (t : string) (v : Q) :
  nth_error vocab i = Some t ->
  term_count t doc = 0%nat ->
  nth_error (tfidf_row sk docs vocab doc) i = Some v ->
  v == 0.
Proof.
  intros Ht Hc. unfold tfidf_row, normalize.
  destruct (Qeq_bool _ 0).
  - rewrite nth_error_map, Ht. simpl. rewrite Hc.
    intros H. inversion H. simpl. ring.
  - rewrite !nth_error_map, Ht. simpl. rewrite Hc.
    intros H. inversion H. unfold Qdiv. simpl. ring.
Qed.

(** On the sample catalog: the vocabulary, in alphabetical order, and the
    row of the first movie.  The terms of the other movies weigh 0; "war"
    is in one document and weighs more than "space", which is in two. *)
Lemma vectorizer_on_sample :
  catalog_vocabulary Sample.sklearn Sample.catalog
  = ["battle"; "battle sci"; "drama"; "fi"; "romance"; "romance story";
     "sci"; "sci fi"; "space"; "space battle"; "space war"; "story";
     "story drama"; "war"; "war sci"]%string
  /\ map Qred (document_vector Sample.sklearn Sample.catalog Sample.space_war)
     = [0; 0; 0; 13250 # 40131; 0; 0; 13250 # 40131; 13250 # 40131;
        13250 # 40131; 0; 1370 # 3159; 0; 0; 1370 # 3159; 1370 # 3159]
  /\ (13250 # 40131) < (1370 # 3159).
Proof. repeat split; vm_compute; reflexivity. Qed.

(** C1 (defect in the code).  The claim: with [weights] omitted or of the
    length of [liked_ids], [scores_for_movies] returns a mapping and never
    raises, in particular when only some of the liked identifiers are in
    the model.  The code: on the model fitted on the movies 1, 2 and 3,
    with the liked identifiers 1 (in the model) and 4 (not in it) and one
    weight for each, the product [sims @ w] of a one-column matrix and a
    two-entry vector raises [ValueError]; with the weights omitted the
    same call returns the entries of the movies 2 and 3.  This is the call
    that [recommend_for_user] makes for user 9 once movie 4 has replaced
    movie 3 in the catalog (the model is not refitted, the number of
    movies being the same), and the exception leaves
    [recommend_for_user]. *)
Theorem scores_for_movies_partial_liked_raises (sk : Sklearn) :
  scores_for_movies sk [1; 4]%Z (Some [5; 4]) Sample.world
  = (Raise ValueError, after_similarity Sample.world)
  /\ (exists r,
         scores_for_movies sk [1; 4]%Z None Sample.world
         = (Ok r, after_similarity Sample.world)
         /\ Dict.keys r = [2; 3]%Z)
  /\ liked_ids_of Sample.changed_db 9 = [1; 4]%Z
  /\ weights_of Sample.changed_db 9 = [5; 4]
  /\ recommend_for_user sk Sample.changed_db 9 12 Sample.world
     = (Raise ValueError, after_similarity Sample.world).
Proof.
  assert (Hfit : fitted (recommender Sample.world) Sample.rows).
  { repeat split; simpl; try discriminate.
    repeat constructor; simpl; intuition discriminate. }
  assert (Hraise : scores_for_movies sk [1; 4]%Z (Some [5; 4]) Sample.world
                   = (Raise ValueError, after_similarity Sample.world)).
  { apply (scores_for_movies_mismatch sk _ _ _ Sample.rows Hfit);
      vm_compute; discriminate. }
  split; [exact Hraise|]. split; [|split; [|split]].
  - eexists. split.
    + apply (scores_for_movies_fitted sk _ None _ Sample.rows Hfit);
        [vm_compute; discriminate | reflexivity].
    + reflexivity.
  - reflexivity.
  - reflexivity.
  - unfold recommend_for_user.
    replace (is_empty (query_ratings_of Sample.changed_db 9)) with false
      by reflexivity.
    change (map movie_id (top_ratings (query_ratings_of Sample.changed_db 9)))
      with [1; 4]%Z.
    change (map rating (top_ratings (query_ratings_of Sample.changed_db 9)))
      with [5; 4].
    unfold bind.
    rewrite (ensure_model_cached sk Sample.changed_db Sample.world Sample.rows)
      by reflexivity.
    rewrite Hraise. reflexivity.
Qed.

(** The scores where the call returns.  On a fitted model, for every list
    of liked identifiers of which at least one is in the model: every
    mapping [scores_for_movies] returns gives each catalog item that is
    not liked the weighted average of the cosine similarities between its
    row and the rows of the liked items found in the model, each weight
    divided by the sum of the weights plus epsilon; with the weights
    omitted every weight is 1 and the call returns, as it does whenever
    there is one weight per liked item found.  The quotients sum to the
    sum of the weights over that denominator, which is epsilon and not
    zero when every weight is zero. *)
Lemma scores_are_weighted_averages (sk : Sklearn) (w : World) (X : Matrix)
  (liked : list Z) (weights : option (list Q)) :
  let ids := movie_ids (recommender w) in
  let found := liked_indices ids liked in
  let ws := match weights with
            | None => repeat 1 (List.length found)
            | Some ws => ws
            end in
  fitted (recommender w) X ->
  (exists mid, In mid liked /\ In mid ids) ->
  (forall r w',
      scores_for_movies sk liked weights w = (Ok r, w') ->
      forall i mid x,
        nth_error ids i = Some mid -> nth_error X i = Some x ->
        ~ In mid liked ->
        Dict.get mid r
        = Some (weighted_average sk x (liked_rows X ids liked) ws))
  /\ (List.length ws = List.length found ->
      exists r,
        scores_for_movies sk liked weights w = (Ok r, after_similarity w))
  /\ (weights = None ->
      ws = repeat 1 (List.length found)
      /\ List.length ws = List.length found)
  /\ (forall j, In j found
                <-> exists mid, In mid liked /\ nth_error ids j = Some mid)
  /\ Qsum (map (fun v => v / (Qsum ws + epsilon)) ws)
     == Qsum ws / (Qsum ws + epsilon)
  /\ (Forall (fun v => v == 0) ws ->
      Qsum ws + epsilon == epsilon /\ ~ epsilon == 0).
Proof.
  intros ids found ws Hfit [mid0 [Hl0 Hi0]].
  assert (Hfound : found <> [])
    by (eapply liked_indices_nonempty; eassumption).
  split; [|split; [|split; [|split; [|split]]]].
  - intros r w' Hcall i mid x Hi Hx Hnl.
    destruct (Nat.eq_dec (List.length ws) (List.length found)) as [Hlen|Hlen].
    + rewrite (scores_for_movies_fitted sk liked weights w X Hfit Hfound Hlen)
        in Hcall.
      inversion Hcall; subst r w'. fold ids found ws.
      destruct Hfit as (_ & HlenX & _ & Hnd). fold ids in HlenX, Hnd.
      apply DictFacts.In_get.
      * apply DictFacts.NoDup_keys_filter. unfold Dict.keys.
        rewrite map_fst_combine; [exact Hnd|]. now rewrite length_map.
      * apply filter_In. split.
        -- apply (nth_error_In _ i).
           apply nth_error_combine_Some; [exact Hi|].
           rewrite nth_error_map, Hx. reflexivity.
        -- simpl. unfold not_liked. apply negb_true_iff.
           apply not_true_iff_false. rewrite existsb_eqb_In. exact Hnl.
    + exfalso. unfold ws in Hlen. destruct weights as [ws0|].
      * rewrite (scores_for_movies_mismatch sk liked ws0 w X Hfit Hfound Hlen)
          in Hcall.
        discriminate.
      * apply Hlen, repeat_length.
  - intros Hlen. eexists.
    now apply (scores_for_movies_fitted sk liked weights w X).
  - intros ->. split; [reflexivity | apply repeat_length].
  - intros j. split.
    + apply liked_indices_spec.
    + intros [mid [Hl Hn]]. destruct Hfit as (_ & _ & _ & Hnd).
      eapply liked_indices_complete; eassumption.
  - apply Qsum_div.
  - intros Hz. split.
    + rewrite (Qsum_zero ws Hz). apply Qplus_0_l.
    + discriminate.
Qed.

Lemma scores_are_weighted_averages_witness :
  exists r,
    scores_for_movies Sample.sklearn [1; 3]%Z (Some [5; 3]) Sample.world
    = (Ok r, after_similarity Sample.world)
    /\ Dict.get 2%Z r
       = Some (weighted_average Sample.sklearn [1; 1] [[1; 0]; [0; 1]]
                                [5; 3]).
Proof.
  destruct (scores_are_weighted_averages Sample.sklearn Sample.world
              Sample.rows [1; 3]%Z (Some [5; 3]))
    as (Hscore & Hret & _).
  - repeat split; simpl; try discriminate.
    repeat constructor; simpl; intuition discriminate.
  - exists 1%Z. simpl. auto.
  - destruct (Hret eq_refl) as [r Hr]. exists r. split; [exact Hr|].
    apply (Hscore r _ Hr 1%nat 2%Z [1; 1]); [reflexivity | reflexivity|].
    simpl. intuition discriminate.
Defined.

(** C2 (defect in the code).  The claim: on a fitted model, for every list
    of liked identifiers of which at least one is in the model,
    [scores_for_movies] computes the score of each catalog item as the
    weighted average of its cosine similarities to the liked items.  The
    code: the model below is fitted on the movies 1, 2 and 3, and of the
    liked identifiers 2 and 7 the first is in the model; yet with one
    weight for each liked identifier, whatever the two weights are, no
    score is computed: the one similarity column found cannot be
    multiplied by the two weights, and the call raises [ValueError].  This
    is the defect of C1: the weight of a liked identifier that is not in
    the model is not dropped together with the identifier. *)
Theorem weighted_average_not_computed (sk : Sklearn) (a b : Q) :
  fitted (recommender Sample.stale_world) [[1; 0]; [0; 1]; [1; 1]]
  /\ In 2%Z [2; 7]%Z
  /\ In 2%Z (movie_ids (recommender Sample.stale_world))
  /\ liked_indices (movie_ids (recommender Sample.stale_world)) [2; 7]%Z
     = [1%nat]
  /\ scores_for_movies sk [2; 7]%Z (Some [a; b]) Sample.stale_world
     = (Raise ValueError, after_similarity Sample.stale_world).
Proof.
  assert (Hfit : fitted (recommender Sample.stale_world)
                        [[1; 0]; [0; 1]; [1; 1]]).
  { repeat split; simpl; try discriminate.
    repeat constructor; simpl; intuition discriminate. }
  split; [exact Hfit|]. split; [now left|]. split; [simpl; auto|].
  split; [reflexivity|].
  apply (scores_for_movies_mismatch sk _ _ _ _ Hfit);
    vm_compute; discriminate.
Qed.

(** C3.  Whatever the state of the model, the liked identifiers and the
    weights, no liked identifier is a key of a mapping that
    [scores_for_movies] returns, be it known to the model or not. *)
Theorem liked_movies_are_excluded (sk : Sklearn) (liked : list Z)
  (weights : option (list Q)) (w w' : World) (r : Dict.t Q) :
  scores_for_movies sk liked weights w = (Ok r, w') ->
  forall mid, In mid liked ->
              Dict.get mid r = None /\ ~ In mid (Dict.keys r).
Proof.
  intros H mid Hmid.
  apply scores_for_movies_as_filter in H as [d [_ ->]].
  assert (Hk : ~ In mid (Dict.keys (filter (fun kv => not_liked liked (fst kv)) d))).
  { unfold Dict.keys. intros Hin.
    apply in_map_iff in Hin as [[k v] [Hk Hin]]. simpl in Hk. subst k.
    apply filter_In in Hin as [_ Hf]. simpl in Hf.
    unfold not_liked in Hf. apply negb_true_iff in Hf.
    apply not_true_iff_false in Hf. apply Hf. now apply existsb_eqb_In. }
  split; [now apply DictFacts.get_None_keys | exact Hk].
Qed.

Lemma liked_movies_are_excluded_witness :
  exists r,
    scores_for_movies Sample.sklearn [1; 99]%Z None Sample.world
    = (Ok r, after_similarity Sample.world)
    /\ Dict.keys r = [2; 3]%Z
    /\ Dict.get 1%Z r = None
    /\ Dict.get 99%Z r = None.
Proof.
  destruct (scores_for_movies Sample.sklearn [1; 99]%Z None Sample.world)
    as [res w'] eqn:E.
  assert (Hres : exists r, res = Ok r /\ w' = after_similarity Sample.world
                           /\ Dict.keys r = [2; 3]%Z).
  { vm_compute in E. inversion E. eexists. repeat split. }
  destruct Hres as [r (-> & -> & Hk)].
  exists r. split; [reflexivity|]. split; [exact Hk|].
  split;
    apply (liked_movies_are_excluded Sample.sklearn [1; 99]%Z None
             Sample.world _ r E); simpl; auto.
Defined.

(* ------------------------------------------------------------------ *)
(** ** Properties of [recommend_for_user] *)

(** Every list [recommend_for_user] returns is the popularity ranking or
    the resolution of a blend of a score map with distinct keys. *)
Lemma recommend_for_user_inv (sk : Sklearn) db uid limit w out w' :
  recommend_for_user sk db uid limit w = (Ok out, w') ->
  out = popularity_ranking db limit
  \/ exists score_map : Dict.t Q,
      NoDup (Dict.keys score_map)
      /\ out = resolve db limit (blend db score_map).
Proof.
  unfold recommend_for_user.
  destruct (is_empty (query_ratings_of db uid));
    [intros [= <- _]; now left|].
  unfold bind.
  destruct (ensure_model sk db w) as [[r|e] w1]; [|discriminate].
  destruct (scores_for_movies sk _ _ w1) as [[sm|e] w2] eqn:Es;
    [|discriminate].
  apply scores_for_movies_keys_NoDup in Es.
  destruct (is_empty sm); intros [= <- _]; [now left|].
  right. now exists sm.
Qed.

(** C4.  For a user without ratings, and for a user with ratings whose
    score map comes back empty, [recommend_for_user] returns the
    popularity ranking: the first [limit] movies of the catalog ordered by
    popularity, highest first, each with its popularity as the score, 0
    when it has none.  In the first case the state is left as it was, so
    no similarity was computed. *)
Theorem popularity_fallback (sk : Sklearn) (db : Session) (uid : Z)
  (limit : nat) (w : World) :
  (query_ratings_of db uid = [] ->
   recommend_for_user sk db uid limit w
   = (Ok (popularity_ranking db limit), w))
  /\ (forall r w1 w2,
         query_ratings_of db uid <> [] ->
         ensure_model sk db w = (Ok r, w1) ->
         scores_for_movies sk (liked_ids_of db uid)
                           (Some (weights_of db uid)) w1
         = (Ok Dict.empty, w2) ->
         recommend_for_user sk db uid limit w
         = (Ok (popularity_ranking db limit), w2))
  /\ (exists sorted,
         Permutation sorted (movies db)
         /\ descending popularity_lt sorted
         /\ map fst (popularity_ranking db limit) = firstn limit sorted)
  /\ (forall m s,
         In (m, s) (popularity_ranking db limit) ->
         s == match popularity m with Some p => p | None => 0 end).
Proof.
  split; [|split; [|split]].
  - apply recommend_cold_start.
  - intros r w1 w2 Hr He Hs.
    now rewrite (recommend_with_ratings sk db uid limit w r w1 _ w2 Hr He Hs).
  - exists (sort_desc popularity_lt (movies db)).
    split; [apply sort_desc_perm|]. split; [apply popularity_sorted|].
    unfold popularity_ranking, query_movies_popular.
    rewrite map_map. simpl. apply map_id.
  - intros m s Hin. unfold popularity_ranking in Hin.
    apply in_map_iff in Hin as [m' [Heq _]]. inversion Heq; subst.
    apply popularity_or_zero_value.
Qed.

Lemma popularity_fallback_witness :
  recommend_for_user Sample.sklearn Sample.db 8 2 Sample.world
  = (Ok [(Sample.romance_story, 9); (Sample.space_war, 5)], Sample.world)
  /\ recommend_for_user Sample.sklearn Sample.changed_db 6 2 Sample.world
     = (Ok [(Sample.space_war, 5); (Sample.space_opera, 2)], Sample.world).
Proof.
  destruct (popularity_fallback Sample.sklearn Sample.db 8 2 Sample.world)
    as (Hcold & _).
  destruct (popularity_fallback Sample.sklearn Sample.changed_db 6 2
              Sample.world) as (_ & Hfall & _).
  split.
  - exact (Hcold eq_refl).
  - apply (Hfall Sample.model Sample.world Sample.world).
    + discriminate.
    + reflexivity.
    + reflexivity.
Defined.

(** C5.  In the personalised branch (the user has ratings and the score
    map is not empty) every returned pair [(m, sc)] carries the blend of
    the similarity score [s] of [m] and its popularity:
    [sc = s * 0.9 + 0.1 * (m.popularity or 0.0)], that is
    [0.9 * s + 0.1 * p] with [p = 0] for a movie without popularity. *)
Theorem blended_score_formula (sk : Sklearn) (db : Session) (uid : Z)
  (limit : nat) (w w1 w2 : World) (r : ContentRecommender)
  (score_map : Dict.t Q) :
  query_ratings_of db uid <> [] ->
  ensure_model sk db w = (Ok r, w1) ->
  scores_for_movies sk (liked_ids_of db uid) (Some (weights_of db uid)) w1
  = (Ok score_map, w2) ->
  score_map <> [] ->
  exists out,
    recommend_for_user sk db uid limit w = (Ok out, w2)
    /\ forall m sc,
        In (m, sc) out ->
        exists s,
          Dict.get (id m) score_map = Some s
          /\ sc = s * 0.9 + 0.1 * popularity_or_zero m
          /\ sc == 0.9 * s
                   + 0.1 * match popularity m with
                           | Some p => p
                           | None => 0
                           end.
Proof.
  intros Hr He Hs Hne.
  pose proof (scores_for_movies_keys_NoDup _ _ _ _ _ _ Hs) as Hnd.
  eexists. split.
  - rewrite (recommend_with_ratings sk db uid limit w r w1 _ w2 Hr He Hs).
    rewrite (is_empty_false _ Hne). reflexivity.
  - intros m sc Hin.
    rewrite resolve_eq in Hin by now apply blend_keys_NoDup.
    apply resolve_top_In in Hin as [mid [Hin Hm]].
    apply firstn_In, blend_In in Hin as [s [Hin ->]].
    rewrite Hm. apply lookup_movie_id in Hm as [<- _].
    exists s. split; [now apply DictFacts.In_get|].
    split; [reflexivity|].
    rewrite popularity_or_zero_value. ring.
Qed.

Lemma blended_score_formula_witness :
  exists out,
    recommend_for_user Sample.sklearn Sample.db 7 12 Sample.world
    = (Ok out, after_similarity Sample.world)
    /\ List.length out = 2%nat
    /\ forall m sc,
        In (m, sc) out ->
        sc == 0.9 * Dict.get_default (id m) 0
                      (fst (match scores_for_movies Sample.sklearn [1]%Z
                                    (Some [5]) Sample.world with
                            | (Ok d, w) => (d, w)
                            | (Raise _, w) => (Dict.empty, w)
                            end))
              + 0.1 * match popularity m with Some p => p | None => 0 end.
Proof.
  destruct (scores_for_movies Sample.sklearn [1]%Z (Some [5]) Sample.world)
    as [[d|e] w2] eqn:Es; [|vm_compute in Es; discriminate].
  assert (Hw2 : w2 = after_similarity Sample.world
                /\ List.length d = 2%nat).
  { vm_compute in Es. inversion Es. split; reflexivity. }
  destruct Hw2 as [-> Hd].
  destruct (blended_score_formula Sample.sklearn Sample.db 7 12 Sample.world
              Sample.world (after_similarity Sample.world) Sample.model d)
    as [out [Hout Hform]].
  - discriminate.
  - reflexivity.
  - exact Es.
  - intros ->. discriminate.
  - exists out. split; [exact Hout|]. split.
    + rewrite (recommend_with_ratings Sample.sklearn Sample.db 7 12
                 Sample.world Sample.model Sample.world d
                 (after_similarity Sample.world)) in Hout;
        [|discriminate | reflexivity | exact Es].
      inversion Hout as [Ho]. clear Hout Hform.
      vm_compute in Es. inversion Es. reflexivity.
    + intros m sc Hin. destruct (Hform m sc Hin) as [s (Hget & _ & Heq)].
      simpl fst. unfold Dict.get_default. rewrite Hget. exact Heq.
Defined.

(** C6.  A list returned for [limit = k] has at most [k] pairs.  In the
    personalised branch it is exactly the first [k] entries of the blended
    ranking, in their order, without the entries whose identifier has no
    movie row: it is sorted by score, highest first, it can be shorter
    than [k], and every pair in it comes from one of those first [k]
    entries.  The popularity ranking of the other branches is sorted by
    score when no popularity is negative. *)
Theorem ranking_truncated_and_sorted (sk : Sklearn) (db : Session) (uid : Z)
  (k : nat) (w : World) :
  (forall out w',
      recommend_for_user sk db uid k w = (Ok out, w') ->
      (List.length out <= k)%nat
      /\ (popularity_nonneg db -> scores_descending (map snd out)))
  /\ (forall r w1 score_map w2,
         query_ratings_of db uid <> [] ->
         ensure_model sk db w = (Ok r, w1) ->
         scores_for_movies sk (liked_ids_of db uid)
                           (Some (weights_of db uid)) w1
         = (Ok score_map, w2) ->
         score_map <> [] ->
         let blended := blend db score_map in
         recommend_for_user sk db uid k w
         = (Ok (resolve_top db k blended), w2)
         /\ scores_descending (map snd (resolve_top db k blended))
         /\ (forall m sc,
                In (m, sc) (resolve_top db k blended) ->
                In (id m, sc) (firstn k blended) /\ In m (movies db))).
Proof.
  split.
  - intros out w' H.
    apply recommend_for_user_inv in H as [->|[sm [Hnd ->]]].
    + split; [apply popularity_ranking_length|].
      apply popularity_ranking_descending.
    + rewrite resolve_eq by now apply blend_keys_NoDup.
      split; [apply resolve_top_length|]. intros _.
      apply resolve_top_descending, blend_descending.
  - intros r w1 sm w2 Hr He Hs Hne blended.
    pose proof (scores_for_movies_keys_NoDup _ _ _ _ _ _ Hs) as Hnd.
    split; [|split].
    + rewrite (recommend_with_ratings sk db uid k w r w1 _ w2 Hr He Hs).
      rewrite (is_empty_false _ Hne).
      now rewrite resolve_eq by now apply blend_keys_NoDup.
    + apply resolve_top_descending, blend_descending.
    + intros m sc Hin. apply resolve_top_In in Hin as [mid [Hin Hm]].
      apply lookup_movie_id in Hm as [<- Hmv]. now split.
Qed.

Lemma ranking_truncated_and_sorted_witness :
  recommend_for_user Sample.sklearn Sample.changed_db 7 1 Sample.stale_world
  = (Ok [], after_similarity Sample.stale_world)
  /\ (exists out,
         recommend_for_user Sample.sklearn Sample.changed_db 7 2
                            Sample.stale_world
         = (Ok out, after_similarity Sample.stale_world)
         /\ map (fun ms => id (fst ms)) out = [2%Z]
         /\ scores_descending (map snd out)).
Proof.
  destruct (scores_for_movies Sample.sklearn [1]%Z (Some [5])
              Sample.stale_world) as [[d|e] w2] eqn:Es;
    [|vm_compute in Es; discriminate].
  assert (Hw2 : w2 = after_similarity Sample.stale_world
                /\ map fst (blend Sample.changed_db d) = [3; 2]%Z).
  { vm_compute in Es. inversion Es. split; reflexivity. }
  destruct Hw2 as [-> Hkeys].
  assert (Hd : d <> []) by (intros ->; discriminate).
  assert (Hblend : exists s1 s2,
             blend Sample.changed_db d = [(3%Z, s1); (2%Z, s2)]).
  { destruct (blend Sample.changed_db d) as [|[k1 s1] [|[k2 s2] [|e l]]];
      try discriminate.
    inversion Hkeys; subst. eauto. }
  destruct Hblend as (s1 & s2 & Hblend).
  split.
  - destruct (ranking_truncated_and_sorted Sample.sklearn Sample.changed_db
                7 1 Sample.stale_world) as [_ H].
    destruct (H Sample.stale_world.(recommender) Sample.stale_world d
                (after_similarity Sample.stale_world))
      as (Hrec & _); [discriminate | reflexivity | exact Es | exact Hd|].
    rewrite Hrec, Hblend. reflexivity.
  - destruct (ranking_truncated_and_sorted Sample.sklearn Sample.changed_db
                7 2 Sample.stale_world) as [_ H].
    destruct (H Sample.stale_world.(recommender) Sample.stale_world d
                (after_similarity Sample.stale_world))
      as (Hrec & Hsorted & _);
      [discriminate | reflexivity | exact Es | exact Hd|].
    exists (resolve_top Sample.changed_db 2 (blend Sample.changed_db d)).
    split; [exact Hrec|]. split; [|exact Hsorted].
    rewrite Hblend. reflexivity.
Defined.

(** C10.  For a user without ratings [recommend_for_user] returns the
    popularity ranking and leaves the whole state as it found it: the
    identifier list and the matrix of the cached model are unchanged and
    neither [fit] nor a similarity computation was called, whatever the
    state was, the never-fitted one included. *)
Theorem cold_start_leaves_model_untouched (sk : Sklearn) (db : Session)
  (uid : Z) (limit : nat) (w : World) :
  query_ratings_of db uid = [] ->
  recommend_for_user sk db uid limit w = (Ok (popularity_ranking db limit), w)
  /\ forall w', w' = snd (recommend_for_user sk db uid limit w) ->
                movie_ids (recommender w') = movie_ids (recommender w)
                /\ tfidf_matrix (recommender w') = tfidf_matrix (recommender w)
                /\ fit_calls w' = fit_calls w
                /\ similarity_calls w' = similarity_calls w.
Proof.
  intros H. rewrite (recommend_cold_start sk db uid limit w H).
  split; [reflexivity|]. intros w' ->. simpl. repeat split.
Qed.

Lemma cold_start_leaves_model_untouched_witness :
  recommend_for_user Sample.sklearn Sample.db 8 2 initial_world
  = (Ok [(Sample.romance_story, 9); (Sample.space_war, 5)], initial_world).
Proof.
  exact (proj1 (cold_start_leaves_model_untouched Sample.sklearn Sample.db 8 2
                  initial_world eq_refl)).
Defined.

(* ------------------------------------------------------------------ *)
(** ** Properties of [fit] and [ensure_model] *)

Lemma count_vocab_nonempty (sk : Sklearn) (movies : list Movie) :
  count_vocab (catalog_documents sk movies) <> []
  <-> exists m, In m movies /\ analyze sk (_build_corpus_row m) <> [].
Proof.
  rewrite count_vocab_nil. unfold catalog_documents. rewrite map_map.
  split.
  - intros H. induction movies as [|m movies IH]; simpl in H.
    + exfalso. apply H. constructor.
    + destruct (analyze sk (_build_corpus_row m)) as [|t d] eqn:E.
      * destruct IH as [m' [Hin Hm']].
        -- intros HF. apply H. now constructor.
        -- exists m'. split; [now right | assumption].
      * exists m. split; [now left | rewrite E; discriminate].
  - intros [m [Hin Hm]] HF. rewrite Forall_forall in HF.
    apply Hm, HF.
    apply (in_map (fun x => analyze sk (_build_corpus_row x))), Hin.
Qed.

Lemma fit_textless_catalog_raises (sk : Sklearn) (movies : list Movie)
  (w : World) :
  movies <> [] -> Forall textless movies ->
  fst (fit sk movies w) = Raise ValueError.
Proof.
  intros Hne Ht.
  assert (Hv : count_vocab (catalog_documents sk movies) = []).
  { apply count_vocab_nil. unfold catalog_documents. rewrite map_map.
    apply Forall_forall. intros d Hd.
    apply in_map_iff in Hd as [m [<- Hm]].
    rewrite Forall_forall in Ht. now apply analyze_textless, Ht. }
  destruct movies as [|m movies]; [congruence|].
  rewrite fit_cons, fit_transform_spec.
  unfold catalog_documents in Hv. rewrite Hv. reflexivity.
Qed.

Lemma textless_row_zero (sk : Sklearn) (movies : list Movie) (m : Movie) :
  textless m -> zero_row (document_vector sk movies m).
Proof.
  intros H. unfold document_vector. rewrite (analyze_textless sk m H).
  apply termless_row_zero.
Qed.

(** What [fit] leaves where it returns.  After [fit(items)] the
    identifier list is the list of the items' identifiers in the order of
    the input.  [fit] returns exactly when the list is empty or some item
    yields a term; when it returns on a list that is not empty, the matrix
    has one row per identifier and row [i] is the vector of the item at
    position [i]; on the empty list it returns and leaves the model
    without matrix and without identifiers. *)
Lemma fit_identifiers_and_rows (sk : Sklearn) (items : list Movie)
  (w : World) :
  movie_ids (recommender (snd (fit sk items w))) = map id items
  /\ (items = [] ->
      fit sk items w
      = (Ok tt, mkWorld (mkRecommender [] None)
                        (S (fit_calls w)) (similarity_calls w)))
  /\ (fst (fit sk items w) = Ok tt
      <-> items = []
          \/ exists m, In m items /\ analyze sk (_build_corpus_row m) <> [])
  /\ (items <> [] ->
      fst (fit sk items w) = Ok tt ->
      exists X,
        tfidf_matrix (recommender (snd (fit sk items w))) = Some X
        /\ List.length X
           = List.length (movie_ids (recommender (snd (fit sk items w))))
        /\ forall i m,
            nth_error items i = Some m ->
            nth_error (movie_ids (recommender (snd (fit sk items w)))) i
            = Some (id m)
            /\ nth_error X i = Some (document_vector sk items m)).
Proof.
  split; [apply fit_movie_ids|]. split; [|split].
  - intros ->. apply fit_nil.
  - rewrite fit_returns_iff, count_vocab_nonempty. reflexivity.
  - intros Hne Hok. exists (map (document_vector sk items) items).
    split; [now apply fit_matrix|].
    rewrite fit_movie_ids, !length_map. split; [reflexivity|].
    intros i m Hi. rewrite !nth_error_map, Hi. split; reflexivity.
Qed.

Lemma fit_identifiers_and_rows_witness :
  exists X,
    fit Sample.sklearn Sample.catalog initial_world
    = (Ok tt, mkWorld (mkRecommender [1; 2; 3]%Z (Some X)) 1 0)
    /\ List.length X = 3%nat
    /\ nth_error X 1 = Some (document_vector Sample.sklearn Sample.catalog
                                             Sample.space_battle).
Proof.
  destruct (fit_identifiers_and_rows Sample.sklearn Sample.catalog
              initial_world) as (Hids & _ & Hret & Hrows).
  assert (Hok : fst (fit Sample.sklearn Sample.catalog initial_world) = Ok tt).
  { apply Hret. right. exists Sample.space_war.
    split; [now left | vm_compute; discriminate]. }
  destruct Hrows as [X (HX & Hlen & Hrow)]; [discriminate | exact Hok|].
  exists X.
  destruct (fit Sample.sklearn Sample.catalog initial_world)
    as [res [[ids M] fc sc]] eqn:E.
  simpl in Hok, Hids, HX, Hlen, Hrow. subst res ids M.
  assert (Hc : fc = 1%nat /\ sc = 0%nat).
  { unfold Sample.catalog in E. rewrite fit_cons in E.
    destruct (fit_transform Sample.sklearn _); inversion E; auto. }
  destruct Hc as [-> ->].
  split; [reflexivity|]. split; [exact Hlen|].
  exact (proj2 (Hrow 1%nat Sample.space_battle eq_refl)).
Defined.

(** On a document with a character outside ASCII the analyzer works on
    the tokens Python finds, on an ASCII document on the tokens computed
    here. *)
Lemma analyze_unicode (sk : Sklearn) (doc : string) :
  is_ascii doc = false ->
  analyze sk doc
  = word_ngrams
      (filter (fun t => negb (string_mem t (english_stop_words sk)))
              (unicode_tokens sk doc)).
Proof. intros H. unfold analyze, document_tokens. now rewrite H. Qed.

Lemma analyze_ascii (sk : Sklearn) (doc : string) :
  is_ascii doc = true ->
  analyze sk doc
  = word_ngrams
      (filter (fun t => negb (string_mem t (english_stop_words sk)))
              (tokenize (lower doc))).
Proof. intros H. unfold analyze, document_tokens. now rewrite H. Qed.

(** A catalog of one movie whose title is outside ASCII: [fit] returns as
    soon as Python finds in its document a token that is not a stop word,
    and raises when it finds none. *)
Lemma fit_on_unicode_title (sk : Sklearn) (w : World) :
  fst (fit sk [Sample.hangul] w) = Ok tt
  <-> exists t,
        In t (unicode_tokens sk (_build_corpus_row Sample.hangul))
        /\ string_mem t (english_stop_words sk) = false.
Proof.
  rewrite fit_returns_iff, count_vocab_nonempty.
  assert (Ha : analyze sk (_build_corpus_row Sample.hangul)
               = word_ngrams
                   (filter (fun t =>
                              negb (string_mem t (english_stop_words sk)))
                           (unicode_tokens sk
                              (_build_corpus_row Sample.hangul))))
    by (apply analyze_unicode; reflexivity).
  split.
  - intros [H|[m [[<-|[]] Hm]]]; [discriminate|].
    rewrite Ha in Hm. unfold word_ngrams in Hm.
    destruct (filter _ _) as [|t l] eqn:E; [now elim Hm|].
    assert (Hin : In t (t :: l)) by now left.
    rewrite <- E in Hin. apply filter_In in Hin as [Hin Hs].
    exists t. split; [exact Hin | now apply negb_true_iff].
  - intros [t [Hin Hs]]. right. exists Sample.hangul.
    split; [now left|]. rewrite Ha. unfold word_ngrams.
    assert (Hf : In t (filter (fun t =>
                                 negb (string_mem t (english_stop_words sk)))
                              (unicode_tokens sk
                                 (_build_corpus_row Sample.hangul)))).
    { apply filter_In. split; [exact Hin | now rewrite Hs]. }
    destruct (filter _ _); [contradiction | discriminate].
Qed.

(** With the stand-in tokens of the sample, the title outside ASCII is one
    token, and [fit] on that movie alone returns. *)
Lemma fit_on_hangul_title_returns :
  analyze Sample.sklearn (_build_corpus_row Sample.hangul)
  = [Sample.hangul_title]
  /\ fst (fit Sample.sklearn [Sample.hangul] initial_world) = Ok tt.
Proof.
  split; [reflexivity|].
  apply fit_on_unicode_title. exists Sample.hangul_title.
  split; [now left | reflexivity].
Qed.

(** C7 (defect in the code).  The claim: for every item list, after
    [fit(items)] the matrix has one row per identifier, row [i] being the
    vector of the identifier at position [i], and [fit] never errors.  The
    code: [fit] stores the new identifiers before it builds the matrix;
    when no item yields a term, building the matrix raises [ValueError] and
    the new identifiers stay next to the matrix the model had.  So on the
    model fitted on the movies 1, 2 and 3, [fit] on the one untitled movie
    4 raises and leaves one identifier next to the three old rows, the
    first of which is the row of movie 1; on a model never fitted it
    leaves one identifier and no matrix.  This is the defect of C9: the
    catalog that is not empty but yields no term is not guarded. *)
Theorem fit_leaves_identifiers_without_rows (sk : Sklearn) :
  let w1 := snd (fit sk [Sample.untitled] Sample.world) in
  let w2 := snd (fit sk [Sample.untitled] initial_world) in
  fst (fit sk [Sample.untitled] Sample.world) = Raise ValueError
  /\ movie_ids (recommender w1) = [4%Z]
  /\ tfidf_matrix (recommender w1) = Some [[1; 0]; [1; 1]; [0; 1]]
  /\ nth_error Sample.rows 0 = Some [1; 0]
  /\ nth_error (movie_ids (recommender Sample.world)) 0 = Some 1%Z
  /\ fst (fit sk [Sample.untitled] initial_world) = Raise ValueError
  /\ movie_ids (recommender w2) = [4%Z]
  /\ tfidf_matrix (recommender w2) = None.
Proof.
  cbv zeta. rewrite !fit_cons.
  replace (fit_transform sk (map (_build_corpus_row) [Sample.untitled]))
    with (@Raise Matrix ValueError) by reflexivity.
  repeat split.
Qed.

(** C8 (defect in the code).  The claim: a second [ensure_model] with an
    unchanged number of catalog items does not refit, the count zero
    included.  The code: on the empty catalog [fit] leaves the matrix
    [None], which [ensure_model] reads as never fitted, so each of two
    calls in a row calls [fit].  (With at least one movie the second call
    does not refit: [ensure_model_twice].) *)
Theorem ensure_model_refits_empty_catalog (sk : Sklearn) :
  let w1 := snd (ensure_model sk Sample.empty_db initial_world) in
  let w2 := snd (ensure_model sk Sample.empty_db w1) in
  fst (ensure_model sk Sample.empty_db initial_world) = Ok new_recommender
  /\ fst (ensure_model sk Sample.empty_db w1) = Ok new_recommender
  /\ fit_calls initial_world = 0%nat
  /\ fit_calls w1 = 1%nat
  /\ fit_calls w2 = 2%nat.
Proof. repeat split. Qed.

(** C9 (defect in the code).  The claim: [fit] never raises on a list that
    is not empty, also when all of its items are without text.  The code:
    when no item yields a term, [fit_transform] raises [ValueError] (empty
    vocabulary), and [fit] leaves the new identifiers next to the old
    matrix; so for the catalog of one untitled movie, and for the catalog
    of the one movie titled "It", a stop word.  When some other item has
    text, [fit] returns and the untitled movie gets a row of zeros. *)
Theorem fit_raises_on_textless_catalog (sk : Sklearn) (w : World) :
  fit sk [Sample.untitled] w
  = (Raise ValueError,
     mkWorld (mkRecommender [4%Z] (tfidf_matrix (recommender w)))
             (S (fit_calls w)) (similarity_calls w))
  /\ fst (fit Sample.sklearn [Sample.it] w) = Raise ValueError
  /\ fst (fit Sample.sklearn [Sample.space_war; Sample.untitled] w) = Ok tt
  /\ zero_row (document_vector Sample.sklearn
                 [Sample.space_war; Sample.untitled] Sample.untitled).
Proof.
  split; [|split; [|split]].
  - rewrite fit_cons. reflexivity.
  - rewrite fit_cons. reflexivity.
  - apply fit_returns_iff. right. vm_compute. discriminate.
  - apply textless_row_zero. repeat split.
Qed.

(* ------------------------------------------------------------------ *)
(** ** The liked-item signal *)

Section Stability.

Context {A : Type}.
Variable lt : A -> A -> bool.
Variable P : A -> bool.

(** [P] selects elements that are never strictly below one another. *)
Hypothesis P_class : forall x y, P x = true -> lt x y = true -> P y = false.

Lemma insert_desc_filter x l :
  filter P (insert_desc lt x l)
  = if P x then x :: filter P l else filter P l.
Proof.
  induction l as [|y l IH]; simpl.
  - reflexivity.
  - destruct (lt x y) eqn:E; simpl.
    + rewrite IH. destruct (P x) eqn:Px.
      * now rewrite (P_class x y Px E).
      * reflexivity.
    + reflexivity.
Qed.

Lemma sort_desc_filter l : filter P (sort_desc lt l) = filter P l.
Proof.
  induction l as [|x l IH]; simpl; [reflexivity|].
  rewrite insert_desc_filter, IH. reflexivity.
Qed.

End Stability.

Lemma StronglySorted_app_inv {A : Type} (R : A -> A -> Prop) l1 l2 :
  StronglySorted R (l1 ++ l2) ->
  forall x y, In x l1 -> In y l2 -> R x y.
Proof.
  induction l1 as [|a l1 IH]; simpl; intros Hs x y Hx Hy; [contradiction|].
  apply StronglySorted_inv in Hs as [Hs Ha].
  destruct Hx as [<-|Hx].
  - rewrite Forall_forall in Ha. apply Ha, in_or_app. now right.
  - now apply IH.
Qed.

Lemma NoDup_firstn {A : Type} n (l : list A) : NoDup l -> NoDup (firstn n l).
Proof.
  intros H. rewrite <- (firstn_skipn n l) in H.
  now apply NoDup_app_remove_r in H.
Qed.

Lemma filter_firstn_prefix {A : Type} (P : A -> bool) n (l : list A) :
  filter P l = filter P (firstn n l) ++ filter P (skipn n l).
Proof. now rewrite <- filter_app, firstn_skipn. Qed.

Lemma top_ratings_eq rs :
  top_ratings rs = firstn 10 (sort_desc (key_lt rating) rs).
Proof.
  unfold top_ratings.
  destruct (Nat.le_gt_cases 10 (List.length (sort_desc (key_lt rating) rs)))
    as [H|H].
  - now rewrite Nat.min_l.
  - rewrite Nat.min_r by lia.
    rewrite firstn_all, firstn_all2 by lia. reflexivity.
Qed.

(** X1.  The liked-item signal is the ten highest ratings of the user (all
    of them when there are fewer): it is a part of the user's ratings, in
    descending order of rating, and no rating left out is higher than a
    rating kept. *)
Theorem top_ratings_are_the_highest (rs : list Rating) :
  List.length (top_ratings rs) = Nat.min 10 (List.length rs)
  /\ scores_descending (map rating (top_ratings rs))
  /\ exists rest,
      Permutation (top_ratings rs ++ rest) rs
      /\ forall kept left,
          In kept (top_ratings rs) -> In left rest ->
          rating left <= rating kept.
Proof.
  rewrite top_ratings_eq. split; [|split].
  - now rewrite length_firstn, sort_desc_length.
  - rewrite <- firstn_map. apply StronglySorted_firstn.
    apply sort_by_key_descending.
  - exists (skipn 10 (sort_desc (key_lt rating) rs)). split.
    + rewrite firstn_skipn. apply sort_desc_perm.
    + intros kept left Hk Hl. apply Qlt_bool_false.
      pose proof (sort_desc_sorted (key_lt rating) (key_lt_asym rating)
                    (key_ge_trans rating) rs) as Hs.
      unfold descending in Hs.
      rewrite <- (firstn_skipn 10 (sort_desc (key_lt rating) rs)) in Hs.
      exact (StronglySorted_app_inv _ _ _ Hs kept left Hk Hl).
Qed.

(** X2.  Ties keep table order: among the user's ratings of one value, the
    ones kept in the signal are the first ones in the order of the query
    result, in that order. *)
Theorem top_ratings_ties_in_table_order (rs : list Rating) (q : Q) :
  let tied := fun r => Qeq_bool (rating r) q in
  exists later,
    filter tied rs = filter tied (top_ratings rs) ++ later.
Proof.
  intros tied. rewrite top_ratings_eq.
  exists (filter tied (skipn 10 (sort_desc (key_lt rating) rs))).
  rewrite <- filter_firstn_prefix. symmetry. apply sort_desc_filter.
  intros x y Hx Hlt. unfold tied in *. unfold key_lt in Hlt.
  apply Qeq_bool_iff in Hx. apply Qlt_bool_true in Hlt.
  apply not_true_iff_false. intros Hy. apply Qeq_bool_iff in Hy.
  rewrite Hx, Hy in Hlt. exact (Qlt_irrefl q Hlt).
Qed.

(** X3.  Ties in the blended ranking keep the order of the score map: the
    entries of one blended score appear in the ranking in the order in
    which the score map lists them. *)
Theorem blend_ties_in_score_map_order (db : Session) (score_map : Dict.t Q)
  (q : Q) :
  let blended_score := fun ms : Z * Q =>
    snd ms * 0.9
    + 0.1 * match lookup_movie db (fst ms) with
            | Some m => popularity_or_zero m
            | None => 0
            end in
  map fst (filter (fun ms => Qeq_bool (snd ms) q) (blend db score_map))
  = map fst (filter (fun ms => Qeq_bool (blended_score ms) q)
                    (Dict.items score_map)).
Proof.
  intros blended_score. unfold blend. rewrite sort_desc_filter.
  2:{ intros x y Hx Hlt. unfold key_lt in Hlt.
      apply Qeq_bool_iff in Hx. apply Qlt_bool_true in Hlt.
      apply not_true_iff_false. intros Hy. apply Qeq_bool_iff in Hy.
      rewrite Hx, Hy in Hlt. exact (Qlt_irrefl q Hlt). }
  induction (Dict.items score_map) as [|[k s] d IH]; simpl; [reflexivity|].
  rewrite pop_map_get. unfold blended_score at 1. simpl.
  destruct (Qeq_bool _ q); simpl; now rewrite IH.
Qed.

Lemma map_snd_enumerate {A : Type} (l : list A) : map snd (enumerate l) = l.
Proof.
  unfold enumerate. generalize 0%nat.
  induction l as [|a l IH]; intros s; simpl; [reflexivity|].
  f_equal. apply IH.
Qed.

Lemma id_to_index_get_None (ids : list Z) (mid : Z) :
  Dict.get mid
    (Dict.of_items (map (fun im : nat * Z => (snd im, fst im)) (enumerate ids)))
  = None
  <-> ~ In mid ids.
Proof.
  rewrite DictFacts.get_None_keys, DictFacts.keys_of_items_In.
  rewrite map_map. simpl.
  change (map (fun x : nat * Z => snd x) (enumerate ids))
    with (map snd (enumerate ids)).
  now rewrite map_snd_enumerate.
Qed.

(** The number of positions found is the number of liked identifiers that
    are in the model, repetitions counted. *)
Lemma liked_indices_length (ids liked : list Z) :
  List.length (liked_indices ids liked)
  = List.length (filter (fun mid => existsb (Z.eqb mid) ids) liked).
Proof.
  unfold liked_indices.
  induction liked as [|mid liked IH]; simpl; [reflexivity|].
  rewrite length_app, IH.
  destruct (Dict.get mid _) eqn:E.
  - replace (existsb (Z.eqb mid) ids) with true; [reflexivity|].
    symmetry. apply existsb_eqb_In.
    destruct (in_dec Z.eq_dec mid ids) as [Hin|Hnin]; [assumption|].
    apply id_to_index_get_None in Hnin. congruence.
  - replace (existsb (Z.eqb mid) ids) with false; [reflexivity|].
    symmetry. apply not_true_iff_false. rewrite existsb_eqb_In.
    now apply id_to_index_get_None.
Qed.

Lemma user_ratings_distinct (db : Session) (uid : Z) :
  ratings_unique (ratings db) ->
  NoDup (map movie_id (query_ratings_of db uid)).
Proof.
  unfold ratings_unique, query_ratings_of.
  induction (ratings db) as [|r rs IH]; simpl; intros Hnd; [constructor|].
  inversion Hnd as [|? ? Hnotin Hnd']; subst.
  destruct (Z.eqb_spec (user_id r) uid) as [Hu|Hu]; simpl; [|auto].
  constructor; [|auto].
  intros Hin. apply Hnotin.
  apply in_map_iff in Hin as [r' [Hmid Hin]].
  apply filter_In in Hin as [Hin Hu']. apply Z.eqb_eq in Hu'.
  apply in_map_iff. exists r'. split; [|assumption].
  congruence.
Qed.

(** X4.  Under the primary key of the ratings table (one rating per user
    and movie) the liked identifiers are distinct; there are at most ten,
    one weight for each, and each pair of identifier and weight is a
    rating of this user in the table. *)
Theorem liked_signal_from_ratings (db : Session) (uid : Z) :
  ratings_unique (ratings db) ->
  NoDup (liked_ids_of db uid)
  /\ List.length (liked_ids_of db uid) = List.length (weights_of db uid)
  /\ (List.length (liked_ids_of db uid) <= 10)%nat
  /\ forall mid wt,
      In (mid, wt) (combine (liked_ids_of db uid) (weights_of db uid)) ->
      In (mkRating uid mid wt) (ratings db).
Proof.
  intros Huniq. unfold liked_ids_of, weights_of.
  rewrite top_ratings_eq. split; [|split; [|split]].
  - rewrite <- firstn_map. apply NoDup_firstn.
    eapply Permutation_NoDup;
      [apply Permutation_sym, Permutation_map, sort_desc_perm|].
    now apply user_ratings_distinct.
  - now rewrite !length_map.
  - rewrite length_map. apply firstn_le_length.
  - intros mid wt Hin.
    assert (Hc : forall l : list Rating,
               combine (map movie_id l) (map rating l)
               = map (fun r => (movie_id r, rating r)) l)
      by (induction l as [|a l IHl]; simpl; [|rewrite IHl]; reflexivity).
    rewrite Hc in Hin. apply in_map_iff in Hin as [r [Heq Hin]].
    apply firstn_In, sort_desc_In in Hin.
    unfold query_ratings_of in Hin. apply filter_In in Hin as [Hin Hu].
    apply Z.eqb_eq in Hu. destruct r as [u m q]. simpl in *.
    inversion Heq; subst. exact Hin.
Qed.

Lemma liked_signal_from_ratings_witness :
  NoDup (liked_ids_of Sample.changed_db 9)
  /\ In (mkRating 9 4 4) (ratings Sample.changed_db).
Proof.
  destruct (liked_signal_from_ratings Sample.changed_db 9)
    as (Hnd & _ & _ & Hin).
  - unfold ratings_unique. simpl.
    repeat constructor; simpl; intuition discriminate.
  - split; [exact Hnd|]. apply Hin. simpl. auto.
Defined.

(* ------------------------------------------------------------------ *)
(** ** More on the similarity scorer *)

(** X5.  Without a usable signal the scorer returns the empty mapping and
    leaves the state alone, whatever the weights are: when the model has no
    matrix, when it has no identifiers, and when no liked identifier is in
    the model.  No similarity is computed and a wrong number of weights
    goes unnoticed. *)
Theorem scores_empty_without_signal (sk : Sklearn) (liked : list Z)
  (weights : option (list Q)) (w : World) :
  tfidf_matrix (recommender w) = None
  \/ movie_ids (recommender w) = []
  \/ (forall mid, In mid liked -> ~ In mid (movie_ids (recommender w))) ->
  scores_for_movies sk liked weights w = (Ok Dict.empty, w).
Proof.
  intros [H|[H|H]].
  - apply scores_for_movies_unfit. now left.
  - apply scores_for_movies_unfit. now right.
  - now apply scores_for_movies_unknown.
Qed.

Lemma scores_empty_without_signal_witness :
  scores_for_movies Sample.sklearn [1]%Z (Some [1; 2; 3]) initial_world
  = (Ok Dict.empty, initial_world)
  /\ scores_for_movies Sample.sklearn [4; 5]%Z (Some []) Sample.world
     = (Ok Dict.empty, Sample.world).
Proof.
  split.
  - apply scores_empty_without_signal. now left.
  - apply scores_empty_without_signal. right. right.
    intros mid [<-|[<-|[]]] [H|[H|[H|[]]]]; discriminate.
Defined.

(** X6.  On a fitted model with a liked identifier in it, every mapping the
    scorer returns has one entry for each identifier of the model that is
    not liked, in the order of the model, and nothing else; it is empty
    exactly when every identifier of the model is liked.  With the weights
    omitted the scorer does return. *)
Theorem score_map_keys (sk : Sklearn) (w : World) (X : Matrix)
  (liked : list Z) (weights : option (list Q)) :
  let ids := movie_ids (recommender w) in
  fitted (recommender w) X ->
  (exists mid, In mid liked /\ In mid ids) ->
  (forall r w',
      scores_for_movies sk liked weights w = (Ok r, w') ->
      Dict.keys r = filter (not_liked liked) ids
      /\ (r = [] <-> forall mid, In mid ids -> In mid liked)
      /\ w' = after_similarity w)
  /\ exists r, scores_for_movies sk liked None w = (Ok r, after_similarity w).
Proof.
  intros ids Hfit [mid0 [Hl0 Hi0]].
  assert (Hfound : liked_indices ids liked <> [])
    by (eapply liked_indices_nonempty; eassumption).
  assert (Hkeys : forall scores : list Q,
             List.length scores = List.length ids ->
             Dict.keys (filter (fun kv : Z * Q => not_liked liked (fst kv))
                               (combine ids scores))
             = filter (not_liked liked) ids).
  { intros scores. clear. revert scores.
    induction ids as [|a l IH]; intros [|s scores] Hlen; simpl;
      try reflexivity; try discriminate.
    destruct (not_liked liked a); simpl; rewrite IH by (simpl in Hlen; lia);
      reflexivity. }
  split.
  - intros r w' Hcall.
    set (ws := match weights with
               | None => repeat 1 (List.length (liked_indices ids liked))
               | Some ws => ws
               end).
    destruct (Nat.eq_dec (List.length ws)
                         (List.length (liked_indices ids liked)))
      as [Hlen|Hlen].
    + rewrite (scores_for_movies_fitted sk liked weights w X Hfit Hfound Hlen)
        in Hcall.
      injection Hcall as Hr Hw.
      destruct Hfit as (_ & HlenX & _ & _). fold ids in HlenX.
      assert (Hk : Dict.keys r = filter (not_liked liked) ids).
      { rewrite <- Hr. apply Hkeys. now rewrite length_map. }
      split; [exact Hk|]. split; [|now symmetry].
      split.
      * intros Hnil mid Hmid. rewrite Hnil in Hk. simpl in Hk.
        destruct (in_dec Z.eq_dec mid liked) as [|Hn]; [assumption|].
        exfalso.
        assert (Hin : In mid (filter (not_liked liked) ids)).
        { apply filter_In. split; [assumption|].
          unfold not_liked. apply negb_true_iff, not_true_iff_false.
          now rewrite existsb_eqb_In. }
        rewrite <- Hk in Hin. exact Hin.
      * intros Hall.
        assert (Hf : filter (not_liked liked) ids = []).
        { clear - Hall. induction ids as [|a l IH]; simpl; [reflexivity|].
          replace (not_liked liked a) with false.
          - apply IH. intros mid Hm. apply Hall. now right.
          - symmetry. unfold not_liked. apply negb_false_iff.
            apply existsb_eqb_In, Hall. now left. }
        rewrite Hf in Hk. unfold Dict.keys in Hk.
        now apply map_eq_nil in Hk.
    + exfalso. unfold ws in Hlen. destruct weights as [ws0|].
      * rewrite (scores_for_movies_mismatch sk liked ws0 w X Hfit Hfound Hlen)
          in Hcall.
        discriminate.
      * apply Hlen, repeat_length.
  - eexists. apply (scores_for_movies_fitted sk liked None w X Hfit Hfound).
    apply repeat_length.
Qed.

Lemma score_map_keys_witness :
  exists r,
    scores_for_movies Sample.sklearn [3; 1; 9]%Z None Sample.world
    = (Ok r, after_similarity Sample.world)
    /\ Dict.keys r = [2]%Z.
Proof.
  destruct (score_map_keys Sample.sklearn Sample.world Sample.rows
              [3; 1; 9]%Z None) as [Hpost [r Hr]].
  - repeat split; simpl; try discriminate.
    repeat constructor; simpl; intuition discriminate.
  - exists 1%Z. simpl. auto.
  - exists r. split; [exact Hr|].
    destruct (Hpost r _ Hr) as (Hk & _). exact Hk.
Defined.

(** X7.  On a fitted model with a liked identifier in it, supplied weights
    make the scorer return exactly when there is one weight for each liked
    identifier that is in the model; otherwise it raises [ValueError],
    after the similarities were computed.  With one weight per liked
    identifier it returns exactly when every liked identifier is in the
    model. *)
Theorem supplied_weights_must_match (sk : Sklearn) (w : World) (X : Matrix)
  (liked : list Z) (ws : list Q) :
  let ids := movie_ids (recommender w) in
  let known := filter (fun mid => existsb (Z.eqb mid) ids) liked in
  fitted (recommender w) X ->
  (exists mid, In mid liked /\ In mid ids) ->
  (List.length ws = List.length known ->
   exists r,
     scores_for_movies sk liked (Some ws) w = (Ok r, after_similarity w))
  /\ (List.length ws <> List.length known ->
      scores_for_movies sk liked (Some ws) w
      = (Raise ValueError, after_similarity w))
  /\ (List.length ws = List.length liked ->
      (exists r w', scores_for_movies sk liked (Some ws) w = (Ok r, w'))
      <-> forall mid, In mid liked -> In mid ids).
Proof.
  intros ids known Hfit [mid0 [Hl0 Hi0]].
  assert (Hfound : liked_indices ids liked <> [])
    by (eapply liked_indices_nonempty; eassumption).
  assert (Hknown : List.length known = List.length (liked_indices ids liked))
    by (symmetry; apply liked_indices_length).
  assert (Hok : List.length ws = List.length known ->
                exists r, scores_for_movies sk liked (Some ws) w
                          = (Ok r, after_similarity w)).
  { intros Hlen. eexists.
    apply (scores_for_movies_fitted sk liked (Some ws) w X Hfit Hfound).
    etransitivity; [exact Hlen | exact Hknown]. }
  assert (Hbad : List.length ws <> List.length known ->
                 scores_for_movies sk liked (Some ws) w
                 = (Raise ValueError, after_similarity w)).
  { intros Hlen.
    apply (scores_for_movies_mismatch sk liked ws w X Hfit Hfound).
    intros H. apply Hlen.
    etransitivity; [exact H | symmetry; exact Hknown]. }
  split; [exact Hok|]. split; [exact Hbad|].
  intros Hlen.
  assert (Hall : List.length known = List.length liked
                 <-> forall mid, In mid liked -> In mid ids).
  { unfold known. clear. induction liked as [|a l IH]; simpl.
    - split; [intros _ mid [] | reflexivity].
    - destruct (existsb (Z.eqb a) ids) eqn:E; simpl.
      + apply existsb_eqb_In in E. split.
        * intros H mid [<-|Hm]; [assumption|]. apply IH; [lia | assumption].
        * intros H. f_equal. apply IH. intros mid Hm. apply H. now right.
      + split.
        * intros H. exfalso.
          pose proof (filter_length_le (fun mid => existsb (Z.eqb mid) ids) l).
          lia.
        * intros H. exfalso. apply not_true_iff_false in E. apply E.
          apply existsb_eqb_In, H. now left. }
  split.
  - intros [r [w' Hcall]]. apply Hall.
    destruct (Nat.eq_dec (List.length ws) (List.length known)) as [He|Hne];
      [congruence|].
    rewrite (Hbad Hne) in Hcall. discriminate.
  - intros H. apply Hall in H.
    destruct Hok as [r Hr]; [congruence|]. eauto.
Qed.

Lemma supplied_weights_must_match_witness :
  (exists r,
      scores_for_movies Sample.sklearn [1; 3]%Z (Some [5; 4]) Sample.world
      = (Ok r, after_similarity Sample.world))
  /\ scores_for_movies Sample.sklearn [1; 4; 3]%Z (Some [5; 4; 3]) Sample.world
     = (Raise ValueError, after_similarity Sample.world).
Proof.
  assert (Hfit : fitted (recommender Sample.world) Sample.rows).
  { repeat split; simpl; try discriminate.
    repeat constructor; simpl; intuition discriminate. }
  split.
  - apply (supplied_weights_must_match Sample.sklearn Sample.world Sample.rows
             [1; 3]%Z [5; 4] Hfit); [exists 1%Z; simpl; auto | reflexivity].
  - apply (supplied_weights_must_match Sample.sklearn Sample.world Sample.rows
             [1; 4; 3]%Z [5; 4; 3] Hfit);
      [exists 1%Z; simpl; auto | simpl; discriminate].
Defined.

Lemma scores_for_movies_frame (sk : Sklearn) (liked : list Z)
  (weights : option (list Q)) (w : World) :
  snd (scores_for_movies sk liked weights w) = w
  \/ snd (scores_for_movies sk liked weights w) = after_similarity w.
Proof.
  unfold scores_for_movies, bind, get_self, lift, ret, tick_similarity.
  simpl.
  destruct (tfidf_matrix (recommender w)) as [X|]; [|now left].
  destruct (is_empty (movie_ids (recommender w))); [now left|].
  destruct (is_empty (liked_indices _ liked)); [now left|].
  destruct (take_rows X _) as [Y|e]; [|now left].
  destruct (matmul _ _) as [scores|e]; [|now right].
  destruct (traverse _ _) as [result|e]; now right.
Qed.

Lemma scores_for_movies_model_only (sk : Sklearn) (liked : list Z)
  (weights : option (list Q)) (v w : World) :
  recommender v = recommender w ->
  fst (scores_for_movies sk liked weights v)
  = fst (scores_for_movies sk liked weights w).
Proof.
  intros Hv.
  unfold scores_for_movies, bind, get_self, lift, ret, tick_similarity.
  simpl. rewrite Hv.
  destruct (tfidf_matrix (recommender w)) as [X|]; [|reflexivity].
  destruct (is_empty (movie_ids (recommender w))); [reflexivity|].
  destruct (is_empty (liked_indices _ liked)); [reflexivity|].
  destruct (take_rows X _) as [Y|e]; [|reflexivity].
  destruct (matmul _ _) as [scores|e]; [|reflexivity].
  destruct (traverse _ _) as [result|e]; reflexivity.
Qed.

(** X8.  The scorer only reads the model: in every state, for every input,
    returning or raising, it leaves the identifiers and the matrix as they
    are and calls neither [fit] nor more than one similarity computation;
    and what it returns depends on the model alone, not on the
    counters. *)
Theorem scorer_reads_only (sk : Sklearn) (liked : list Z)
  (weights : option (list Q)) (w : World) :
  let w' := snd (scores_for_movies sk liked weights w) in
  recommender w' = recommender w
  /\ fit_calls w' = fit_calls w
  /\ (similarity_calls w' <= S (similarity_calls w))%nat
  /\ forall v, recommender v = recommender w ->
               fst (scores_for_movies sk liked weights v)
               = fst (scores_for_movies sk liked weights w).
Proof.
  intros w'. split; [|split; [|split]].
  - destruct (scores_for_movies_frame sk liked weights w) as [H|H];
      unfold w'; rewrite H; reflexivity.
  - destruct (scores_for_movies_frame sk liked weights w) as [H|H];
      unfold w'; rewrite H; reflexivity.
  - destruct (scores_for_movies_frame sk liked weights w) as [H|H];
      unfold w'; rewrite H; simpl; lia.
  - intros v. apply scores_for_movies_model_only.
Qed.

(* ------------------------------------------------------------------ *)
(** ** More on the model cache *)

Lemma fit_outcome (sk : Sklearn) (items : list Movie) (w : World) :
  match fit sk items w with
  | (Ok _, w') =>
      recommender w'
      = mkRecommender (map id items)
          (match items with
           | [] => None
           | _ :: _ => Some (map (document_vector sk items) items)
           end)
  | (Raise e, w') =>
      e = ValueError
      /\ items <> []
      /\ (forall m, In m items -> analyze sk (_build_corpus_row m) = [])
      /\ recommender w'
         = mkRecommender (map id items) (tfidf_matrix (recommender w))
  end
  /\ fit_calls (snd (fit sk items w)) = S (fit_calls w)
  /\ similarity_calls (snd (fit sk items w)) = similarity_calls w.
Proof.
  destruct items as [|m items].
  - rewrite fit_nil. simpl. auto.
  - pose proof (fit_matrix sk (m :: items) w) as HM.
    pose proof (fit_returns_iff sk (m :: items) w) as HR.
    rewrite fit_cons in *. rewrite fit_transform_spec in *.
    fold (catalog_documents sk (m :: items)) in *.
    destruct (is_empty (count_vocab (catalog_documents sk (m :: items))))
      eqn:E; simpl in *.
    + repeat split; try discriminate.
      intros m' Hm'.
      assert (Hv : count_vocab (catalog_documents sk (m :: items)) = [])
        by (destruct (count_vocab _); [reflexivity | discriminate]).
      apply count_vocab_nil in Hv. unfold catalog_documents in Hv.
      rewrite map_map, Forall_forall in Hv. apply Hv.
      apply (in_map (fun x => analyze sk (_build_corpus_row x))), Hm'.
    + repeat split. f_equal.
      assert (H : Some (map (tfidf_row sk (catalog_documents sk (m :: items))
                   (limit_features (catalog_documents sk (m :: items))
                      (count_vocab (catalog_documents sk (m :: items)))))
                   (catalog_documents sk (m :: items)))
                  = Some (map (document_vector sk (m :: items)) (m :: items)))
        by (apply HM; [discriminate | reflexivity]).
      exact H.
Qed.

(** X9.  What [ensure_model] leaves behind.  When it returns, the model it
    returns is the cached one, it has as many identifiers as the catalog
    has movies and, for a catalog that is not empty, a matrix; the state is
    the one before the call or the result of one [fit] on the whole
    catalog.  When it raises, the exception is the [ValueError] of a
    catalog that is not empty and yields no term, and the cached model then
    holds the new identifiers next to the matrix it had before. *)
Theorem ensure_model_outcome (sk : Sklearn) (db : Session) (w : World) :
  match ensure_model sk db w with
  | (Ok r, w') =>
      r = recommender w'
      /\ List.length (movie_ids r) = List.length (movies db)
      /\ (movies db <> [] -> tfidf_matrix r <> None)
      /\ (w' = w
          \/ (fit_calls w' = S (fit_calls w)
              /\ similarity_calls w' = similarity_calls w
              /\ r = mkRecommender (map id (movies db))
                       (match movies db with
                        | [] => None
                        | _ :: _ =>
                            Some (map (document_vector sk (movies db))
                                      (movies db))
                        end)))
  | (Raise e, w') =>
      e = ValueError
      /\ movies db <> []
      /\ (forall m, In m (movies db) ->
                    analyze sk (_build_corpus_row m) = [])
      /\ recommender w'
         = mkRecommender (map id (movies db)) (tfidf_matrix (recommender w))
      /\ fit_calls w' = S (fit_calls w)
  end.
Proof.
  destruct (tfidf_matrix (recommender w)) as [X|] eqn:EX.
  - destruct (Nat.eq_dec (List.length (movie_ids (recommender w)))
                         (List.length (movies db))) as [Hlen|Hlen].
    + rewrite (ensure_model_cached sk db w X EX Hlen).
      repeat split; auto. rewrite EX. discriminate.
    + rewrite ensure_model_refit by now right.
      pose proof (fit_outcome sk (movies db) w) as (Hout & Hf & Hs).
      destruct (fit sk (movies db) w) as [[[]|e] w1]; simpl in *.
      * rewrite Hout. simpl. rewrite length_map.
        repeat split; auto.
        destruct (movies db); [congruence | discriminate].
      * destruct Hout as (-> & Hne & Hno & Hrec). rewrite EX in Hrec. auto.
  - rewrite ensure_model_refit by now left.
    pose proof (fit_outcome sk (movies db) w) as (Hout & Hf & Hs).
    destruct (fit sk (movies db) w) as [[[]|e] w1]; simpl in *.
    + rewrite Hout. simpl. rewrite length_map.
      repeat split; auto.
      destruct (movies db); [congruence | discriminate].
    + destruct Hout as (-> & Hne & Hno & Hrec). rewrite EX in Hrec. auto.
Qed.



(* ------------------------------------------------------------------ *)
(** ** More on [recommend_for_user] *)

Lemma recommend_for_user_steps (sk : Sklearn) db uid limit w out w' :
  query_ratings_of db uid <> [] ->
  recommend_for_user sk db uid limit w = (Ok out, w') ->
  exists r w1 score_map,
    ensure_model sk db w = (Ok r, w1)
    /\ scores_for_movies sk (liked_ids_of db uid) (Some (weights_of db uid)) w1
       = (Ok score_map, w').
Proof.
  intros Hr. unfold recommend_for_user.
  rewrite (is_empty_false _ Hr). unfold bind.
  destruct (ensure_model sk db w) as [[r|e] w1]; [|discriminate].
  fold (liked_ids_of db uid) (weights_of db uid).
  destruct (scores_for_movies sk _ _ w1) as [[sm|e] w2] eqn:Es;
    [|discriminate].
  intros H. exists r, w1, sm. split; [reflexivity|].
  destruct (is_empty sm); inversion H; subst; exact Es.
Qed.

Lemma score_map_keys_not_liked (sk : Sklearn) liked weights w r w' k :
  scores_for_movies sk liked weights w = (Ok r, w') ->
  In k (Dict.keys r) -> ~ In k liked.
Proof.
  intros H Hk. apply scores_for_movies_as_filter in H as [d [_ ->]].
  unfold Dict.keys in Hk. apply in_map_iff in Hk as [[k' v] [<- Hin]].
  apply filter_In in Hin as [_ Hf]. simpl in *.
  unfold not_liked in Hf. apply negb_true_iff, not_true_iff_false in Hf.
  now rewrite existsb_eqb_In in Hf.
Qed.

Lemma resolve_top_ids db limit blended :
  map (fun ms => id (fst ms)) (resolve_top db limit blended)
  = filter (fun mid => match lookup_movie db mid with
                       | Some _ => true
                       | None => false
                       end)
           (map fst (firstn limit blended)).
Proof.
  unfold resolve_top.
  induction (firstn limit blended) as [|[mid sc] l IH]; simpl;
    [reflexivity|].
  rewrite map_app, IH.
  destruct (lookup_movie db mid) as [m|] eqn:E; simpl; [|reflexivity].
  apply lookup_movie_id in E as [-> _]. reflexivity.
Qed.

Lemma lookup_movie_Some db mid :
  In mid (map id (movies db)) -> exists m, lookup_movie db mid = Some m.
Proof.
  intros Hin. unfold lookup_movie.
  destruct (find _ _) as [m|] eqn:E; [eauto|].
  exfalso. apply in_map_iff in Hin as [m [<- Hm]].
  pose proof (find_none _ _ E m) as Hnone. simpl in Hnone.
  rewrite Z.eqb_refl in Hnone.
  assert (true = false) by (apply Hnone; now apply -> in_rev).
  discriminate.
Qed.

Lemma resolve_top_all_resolved db limit blended :
  (forall ms, In ms blended -> In (fst ms) (map id (movies db))) ->
  List.length (resolve_top db limit blended)
  = Nat.min limit (List.length blended).
Proof.
  intros Hall. unfold resolve_top. rewrite <- length_firstn.
  assert (H : forall ms, In ms (firstn limit blended) ->
                         In (fst ms) (map id (movies db)))
    by (intros ms Hms; apply Hall; eapply firstn_In; eassumption).
  induction (firstn limit blended) as [|ms l IH]; simpl; [reflexivity|].
  rewrite length_app, IH by (intros x Hx; apply H; now right).
  destruct (lookup_movie_Some db (fst ms)) as [m Hm];
    [apply H; now left|].
  rewrite Hm. reflexivity.
Qed.

(** X11.  A request repeated on an unchanged catalog that is not empty
    gets the same answer from the cached model: when [recommend_for_user]
    has returned, the same call in the state it left returns the same
    list, and neither calls [fit] nor changes the model. *)
Theorem repeated_request_reuses_model (sk : Sklearn) (db : Session)
  (uid : Z) (limit : nat) (w w1 : World) (out : list (Movie * Q)) :
  movies db <> [] ->
  recommend_for_user sk db uid limit w = (Ok out, w1) ->
  exists w2,
    recommend_for_user sk db uid limit w1 = (Ok out, w2)
    /\ recommender w2 = recommender w1
    /\ fit_calls w2 = fit_calls w1.
Proof.
  intros Hne Hcall.
  destruct (query_ratings_of db uid) as [|r0 rs] eqn:Er.
  - rewrite (recommend_cold_start sk db uid limit w Er) in Hcall.
    inversion Hcall; subst. exists w1.
    rewrite (recommend_cold_start sk db uid limit w1 Er). auto.
  - assert (Hr : query_ratings_of db uid <> []) by (rewrite Er; discriminate).
    destruct (recommend_for_user_steps sk db uid limit w out w1 Hr Hcall)
      as (r & wa & sm & He & Hs).
    rewrite (recommend_with_ratings sk db uid limit w r wa sm w1 Hr He Hs)
      in Hcall.
    destruct (ensure_model_post sk db w r wa Hne He) as (-> & [X HX] & Hlen).
    assert (Hsame : recommender w1 = recommender wa).
    { destruct (scores_for_movies_frame sk (liked_ids_of db uid)
                  (Some (weights_of db uid)) wa) as [H|H];
        rewrite Hs in H; simpl in H; subst w1; reflexivity. }
    assert (He1 : ensure_model sk db w1 = (Ok (recommender w1), w1)).
    { apply (ensure_model_cached sk db w1 X); now rewrite Hsame. }
    destruct (scores_for_movies sk (liked_ids_of db uid)
                (Some (weights_of db uid)) w1) as [res w2] eqn:Es1.
    assert (Hres : res = Ok sm).
    { pose proof (scores_for_movies_model_only sk (liked_ids_of db uid)
                    (Some (weights_of db uid)) w1 wa Hsame) as H.
      rewrite Es1, Hs in H. exact H. }
    subst res. exists w2.
    rewrite (recommend_with_ratings sk db uid limit w1 (recommender w1) w1 sm
               w2 Hr He1 Es1).
    inversion Hcall; subst. split; [reflexivity|].
    destruct (scores_for_movies_frame sk (liked_ids_of db uid)
                (Some (weights_of db uid)) w1) as [H|H];
      rewrite Es1 in H; simpl in H; subst w2; auto.
Qed.

Lemma repeated_request_reuses_model_witness :
  exists out w1 w2,
    recommend_for_user Sample.sklearn Sample.db 7 2 initial_world
    = (Ok out, w1)
    /\ recommend_for_user Sample.sklearn Sample.db 7 2 w1 = (Ok out, w2)
    /\ fit_calls w1 = 1%nat /\ fit_calls w2 = 1%nat.
Proof.
  destruct (recommend_for_user Sample.sklearn Sample.db 7 2 initial_world)
    as [[out|e] w1] eqn:E; [|vm_compute in E; discriminate].
  assert (Hf : fit_calls w1 = 1%nat)
    by (vm_compute in E; inversion E; reflexivity).
  destruct (repeated_request_reuses_model Sample.sklearn Sample.db 7 2
              initial_world w1 out) as [w2 (H2 & _ & Hf2)];
    [discriminate | exact E|].
  exists out, w1, w2. repeat split; [exact H2 | exact Hf | congruence].
Defined.

(** X12.  In the personalised branch no returned movie is one of the liked
    movies of the signal, every returned movie is a row of the catalog, and
    no movie is returned twice. *)
Theorem personalised_result_is_new (sk : Sklearn) (db : Session) (uid : Z)
  (limit : nat) (w w1 w2 : World) (r : ContentRecommender)
  (score_map : Dict.t Q) :
  query_ratings_of db uid <> [] ->
  ensure_model sk db w = (Ok r, w1) ->
  scores_for_movies sk (liked_ids_of db uid) (Some (weights_of db uid)) w1
  = (Ok score_map, w2) ->
  score_map <> [] ->
  exists out,
    recommend_for_user sk db uid limit w = (Ok out, w2)
    /\ (forall m sc, In (m, sc) out ->
                     ~ In (id m) (liked_ids_of db uid) /\ In m (movies db))
    /\ NoDup (map (fun ms => id (fst ms)) out).
Proof.
  intros Hr He Hs Hne.
  pose proof (scores_for_movies_keys_NoDup _ _ _ _ _ _ Hs) as Hnd.
  exists (resolve_top db limit (blend db score_map)).
  split; [|split].
  - rewrite (recommend_with_ratings sk db uid limit w r w1 _ w2 Hr He Hs).
    rewrite (is_empty_false _ Hne).
    now rewrite resolve_eq by now apply blend_keys_NoDup.
  - intros m sc Hin. apply resolve_top_In in Hin as [mid [Hin Hm]].
    apply lookup_movie_id in Hm as [<- Hmv]. split; [|assumption].
    apply (score_map_keys_not_liked sk _ _ _ _ _ (id m) Hs).
    apply (Permutation_in _ (blend_keys_perm db score_map)).
    apply firstn_In in Hin. now apply (in_map fst) in Hin.
  - rewrite resolve_top_ids. apply NoDup_filter.
    rewrite <- firstn_map. apply NoDup_firstn.
    now apply blend_keys_NoDup.
Qed.

Lemma personalised_result_is_new_witness :
  exists out,
    recommend_for_user Sample.sklearn Sample.db 7 5 Sample.world
    = (Ok out, after_similarity Sample.world)
    /\ NoDup (map (fun ms => id (fst ms)) out)
    /\ forall m sc, In (m, sc) out -> id m <> 1%Z.
Proof.
  destruct (scores_for_movies Sample.sklearn [1]%Z (Some [5]) Sample.world)
    as [[d|e] w2] eqn:Es; [|vm_compute in Es; discriminate].
  assert (Hw2 : w2 = after_similarity Sample.world /\ d <> []).
  { vm_compute in Es. inversion Es. split; [reflexivity | discriminate]. }
  destruct Hw2 as [-> Hd].
  destruct (personalised_result_is_new Sample.sklearn Sample.db 7 5
              Sample.world Sample.world (after_similarity Sample.world)
              Sample.model d) as [out (Hout & Hnew & Hnd)];
    [discriminate | reflexivity | exact Es | exact Hd|].
  exists out. split; [exact Hout|]. split; [exact Hnd|].
  intros m sc Hin Heq. destruct (Hnew m sc Hin) as [Hnl _].
  apply Hnl. rewrite Heq. now left.
Defined.

Lemma top_ratings_nonempty rs : rs <> [] -> top_ratings rs <> [].
Proof.
  intros Hne Hnil.
  assert (H : List.length (top_ratings rs) = Nat.min 10 (List.length rs))
    by (rewrite top_ratings_eq, length_firstn, sort_desc_length; reflexivity).
  rewrite Hnil in H. destruct rs; [congruence | simpl in H; lia].
Qed.

Lemma filter_map_id (P : Z -> bool) (l : list Movie) :
  filter P (map id l) = map id (filter (fun m => P (id m)) l).
Proof.
  induction l as [|m l IH]; simpl; [reflexivity|].
  destruct (P (id m)); simpl; now rewrite IH.
Qed.

Lemma keys_filter_combine (P : Z -> bool) (ids : list Z) (scores : list Q) :
  List.length scores = List.length ids ->
  Dict.keys (filter (fun kv : Z * Q => P (fst kv)) (combine ids scores))
  = filter P ids.
Proof.
  revert scores. induction ids as [|a l IH]; intros [|s scores] Hlen; simpl;
    try reflexivity; try discriminate.
  destruct (P a); simpl; rewrite IH by (simpl in Hlen; lia); reflexivity.
Qed.

Lemma recommend_in_step (sk : Sklearn) (db : Session) (uid : Z)
  (limit : nat) (w : World) (X : Matrix) :
  let liked := liked_ids_of db uid in
  in_step w db X ->
  query_ratings_of db uid <> [] ->
  (forall mid, In mid liked -> In mid (map id (movies db))) ->
  exists out,
    recommend_for_user sk db uid limit w = (Ok out, after_similarity w)
    /\ (candidates db liked <> [] ->
        List.length out
        = Nat.min limit (List.length (candidates db liked))
        /\ forall m sc, In (m, sc) out -> In m (candidates db liked))
    /\ (candidates db liked = [] -> out = popularity_ranking db limit).
Proof.
  intros liked [Hfit Hids] Hr Hfk.
  pose proof Hfit as (HX & HlenX & Hne & Hnd).
  assert (He : ensure_model sk db w = (Ok (recommender w), w)).
  { apply (ensure_model_cached sk db w X HX).
    rewrite Hids. apply length_map. }
  assert (Hliked : liked <> []).
  { unfold liked, liked_ids_of. intros Hnil. apply map_eq_nil in Hnil.
    exact (top_ratings_nonempty _ Hr Hnil). }
  assert (Hfound : liked_indices (movie_ids (recommender w)) liked <> []).
  { destruct liked as [|mid l] eqn:El; [congruence|].
    apply (liked_indices_nonempty _ _ mid); [now left|].
    rewrite Hids. apply Hfk. now left. }
  assert (Hlen : List.length (weights_of db uid)
                 = List.length (liked_indices (movie_ids (recommender w))
                                              liked)).
  { rewrite liked_indices_length, filter_all.
    - unfold liked, liked_ids_of, weights_of. now rewrite !length_map.
    - intros mid Hmid. apply existsb_eqb_In. rewrite Hids. now apply Hfk. }
  pose proof (scores_for_movies_fitted sk liked (Some (weights_of db uid)) w X
                Hfit Hfound Hlen) as Hs.
  set (sm := filter _ _) in Hs.
  assert (Hkeys : Dict.keys sm = map id (candidates db liked)).
  { unfold sm, candidates. rewrite <- filter_map_id, <- Hids.
    apply keys_filter_combine. now rewrite length_map. }
  eexists. split; [|split].
  - apply (recommend_with_ratings sk db uid limit w (recommender w) w sm
             (after_similarity w) Hr He Hs).
  - intros Hc.
    assert (Hsm : sm <> []).
    { intros Hnil. rewrite Hnil in Hkeys. simpl in Hkeys.
      symmetry in Hkeys. apply map_eq_nil in Hkeys. contradiction. }
    rewrite (is_empty_false _ Hsm).
    assert (Hnds : NoDup (Dict.keys sm)).
    { rewrite Hkeys. unfold candidates. rewrite <- filter_map_id.
      apply NoDup_filter. rewrite <- Hids. exact Hnd. }
    rewrite resolve_eq by now apply blend_keys_NoDup.
    split.
    + rewrite resolve_top_all_resolved.
      * f_equal. rewrite <- (length_map id (candidates db liked)), <- Hkeys.
        unfold Dict.keys. rewrite length_map.
        unfold blend, Dict.items. now rewrite sort_desc_length, length_map.
      * intros ms Hms. apply (in_map fst) in Hms.
        apply (Permutation_in _ (blend_keys_perm db sm)) in Hms.
        rewrite Hkeys in Hms. apply in_map_iff in Hms as [m [<- Hm]].
        apply in_map. unfold candidates in Hm.
        now apply filter_In in Hm as [Hm _].
    + intros m sc Hin. apply resolve_top_In in Hin as [mid [Hin Hm]].
      apply lookup_movie_id in Hm as [<- Hmv].
      apply firstn_In in Hin. apply (in_map fst) in Hin. simpl in Hin.
      apply (Permutation_in _ (blend_keys_perm db sm)) in Hin.
      rewrite Hkeys in Hin. apply in_map_iff in Hin as [m' [Heq Hm']].
      unfold candidates in *. apply filter_In in Hm' as [_ Hnl].
      apply filter_In. split; [assumption|]. now rewrite <- Heq.
  - intros Hc. rewrite Hc in Hkeys. simpl in Hkeys.
    unfold Dict.keys in Hkeys. apply map_eq_nil in Hkeys.
    now rewrite Hkeys.
Qed.

(** X13.  With a model that is in step with the catalog and ratings that
    refer to movies of the catalog, a request of a user with ratings is
    always served: [recommend_for_user] returns.  When some movie of the
    catalog is not liked, the result consists of such movies only, and
    there are [limit] of them or, if fewer exist, all of them.  When every
    movie of the catalog is liked, the result is the popularity ranking,
    which then consists of movies the user has rated. *)
Theorem in_step_request_is_served (sk : Sklearn) (db : Session) (uid : Z)
  (limit : nat) (w : World) (X : Matrix) :
  let liked := liked_ids_of db uid in
  in_step w db X ->
  query_ratings_of db uid <> [] ->
  (forall mid, In mid liked -> In mid (map id (movies db))) ->
  exists out,
    recommend_for_user sk db uid limit w = (Ok out, after_similarity w)
    /\ (candidates db liked <> [] ->
        List.length out
        = Nat.min limit (List.length (candidates db liked))
        /\ forall m sc, In (m, sc) out -> In m (candidates db liked))
    /\ (candidates db liked = [] -> out = popularity_ranking db limit).
Proof. exact (recommend_in_step sk db uid limit w X). Qed.

Lemma in_step_request_is_served_witness :
  (exists out,
      recommend_for_user Sample.sklearn Sample.db 7 5 Sample.world
      = (Ok out, after_similarity Sample.world)
      /\ List.length out = 2%nat)
  /\ recommend_for_user Sample.sklearn Sample2.single_db 7 5
                        Sample2.single_world
     = (Ok [(Sample.space_war, 5)], after_similarity Sample2.single_world).
Proof.
  split.
  - destruct (in_step_request_is_served Sample.sklearn Sample.db 7 5
                Sample.world Sample.rows) as [out (Hout & Hsome & _)].
    + split; [|reflexivity]. repeat split; simpl; try discriminate.
      repeat constructor; simpl; intuition discriminate.
    + discriminate.
    + intros mid [<-|[]]. simpl. auto.
    + exists out. split; [exact Hout|].
      apply Hsome. discriminate.
  - destruct (in_step_request_is_served Sample.sklearn Sample2.single_db 7 5
                Sample2.single_world [[1; 0]]) as [out (Hout & _ & Hnone)].
    + split; [|reflexivity]. repeat split; simpl; try discriminate.
      repeat constructor; simpl; intuition discriminate.
    + discriminate.
    + intros mid [<-|[]]. simpl. auto.
    + rewrite Hout. f_equal. f_equal. apply Hnone. reflexivity.
Defined.

(* ------------------------------------------------------------------ *)
(** ** The handlers *)

(** X14.  The response of [GET /api/recommend].  A body is returned only
    when it has at least one and at most [limit] entries, and it lists the
    pairs of [recommend_for_user] in their order; the 404 is raised exactly
    when [recommend_for_user] returns the empty list; an exception of the
    recommender passes through unchanged.  The state is the one
    [recommend_for_user] leaves. *)
Theorem recommend_response (sk : Sklearn) (db : Session) (uid : Z)
  (limit : nat) (w : World) :
  match recommend sk db uid limit w with
  | (Ok (inr body), w') =>
      body <> []
      /\ (List.length body <= limit)%nat
      /\ recommend_for_user sk db uid limit w
         = (Ok (map (fun b => (movie b, score b)) body), w')
  | (Ok (inl e), w') =>
      e = HTTPException 404 "No recommendations available"
      /\ recommend_for_user sk db uid limit w = (Ok [], w')
  | (Raise e, w') => recommend_for_user sk db uid limit w = (Raise e, w')
  end.
Proof.
  unfold recommend, bind.
  destruct (recommend_for_user sk db uid limit w) as [[recs|e] w'] eqn:E;
    [|reflexivity].
  destruct recs as [|p recs]; simpl.
  - split; reflexivity.
  - split; [discriminate|]. split.
    + apply recommend_for_user_inv in E as [Hp|[sm [Hnd Hr]]].
      * change (S (List.length (map
                  (fun ms : Movie * Q => mkRecommendationOut (fst ms) (snd ms))
                  recs)))
          with (List.length (map
                  (fun ms : Movie * Q => mkRecommendationOut (fst ms) (snd ms))
                  (p :: recs))).
        rewrite length_map, Hp. apply popularity_ranking_length.
      * change (S (List.length (map
                  (fun ms : Movie * Q => mkRecommendationOut (fst ms) (snd ms))
                  recs)))
          with (List.length (map
                  (fun ms : Movie * Q => mkRecommendationOut (fst ms) (snd ms))
                  (p :: recs))).
        rewrite length_map, Hr.
        rewrite resolve_eq by now apply blend_keys_NoDup.
        apply resolve_top_length.
    + f_equal. f_equal. destruct p as [m sc]. simpl. f_equal.
      rewrite map_map. simpl.
      rewrite <- (map_id recs) at 1. apply map_ext. now intros [m' sc'].
Qed.

(** X15.  A user without ratings gets the 404 exactly when the catalog is
    empty or [limit] is zero; otherwise the body has [limit] entries or, if
    the catalog is smaller, one entry per movie.  The model is not
    touched. *)
Theorem cold_start_response (sk : Sklearn) (db : Session) (uid : Z)
  (limit : nat) (w : World) :
  query_ratings_of db uid = [] ->
  (movies db = [] \/ limit = 0%nat ->
   recommend sk db uid limit w
   = (Ok (inl (HTTPException 404 "No recommendations available")), w))
  /\ (movies db <> [] -> limit <> 0%nat ->
      exists body,
        recommend sk db uid limit w = (Ok (inr body), w)
        /\ List.length body = Nat.min limit (List.length (movies db))
        /\ map movie body = query_movies_popular db limit).
Proof.
  intros Hr. unfold recommend, bind.
  rewrite (recommend_cold_start sk db uid limit w Hr).
  assert (Hlen : List.length (popularity_ranking db limit)
                 = Nat.min limit (List.length (movies db))).
  { unfold popularity_ranking, query_movies_popular.
    now rewrite length_map, length_firstn, sort_desc_length. }
  split.
  - intros H.
    assert (Hnil : popularity_ranking db limit = []).
    { apply length_zero_iff_nil. rewrite Hlen.
      destruct H as [-> | ->]; simpl; lia. }
    now rewrite Hnil.
  - intros Hne Hl.
    assert (Hnz : popularity_ranking db limit <> []).
    { intros Hnil. rewrite Hnil in Hlen. simpl in Hlen.
      destruct (movies db); [congruence|]. destruct limit; [congruence|].
      simpl in Hlen. discriminate. }
    rewrite (is_empty_false _ Hnz). eexists. split; [reflexivity|].
    split.
    + rewrite length_map. exact Hlen.
    + rewrite map_map. simpl.
      unfold popularity_ranking. rewrite map_map. simpl. apply map_id.
Qed.

Lemma cold_start_response_witness :
  recommend Sample.sklearn Sample.empty_db 8 12 initial_world
  = (Ok (inl (HTTPException 404 "No recommendations available")),
     initial_world)
  /\ exists body,
      recommend Sample.sklearn Sample.db 8 2 initial_world
      = (Ok (inr body), initial_world)
      /\ map movie body = [Sample.romance_story; Sample.space_war].
Proof.
  split.
  - apply (cold_start_response Sample.sklearn Sample.empty_db 8 12
             initial_world eq_refl). now left.
  - destruct (cold_start_response Sample.sklearn Sample.db 8 2 initial_world
                eq_refl) as [_ H].
    destruct H as [body (Hb & _ & Hm)]; [discriminate | discriminate|].
    exists body. split; [exact Hb | exact Hm].
Defined.

Lemma firstn_add {A : Type} (n m : nat) (l : list A) :
  firstn (n + m) l = firstn n l ++ firstn m (skipn n l).
Proof.
  revert l. induction n as [|n IH]; intros [|a l]; simpl;
    try reflexivity.
  - now rewrite firstn_nil.
  - now rewrite IH.
Qed.

(** X16.  Pages of [GET /api/movies] fit together: the page of [n] movies
    after [skip] followed by the page of [m] movies after [skip + n] is the
    page of [n + m] movies after [skip]; a page has [limit] movies or, at
    the end of the table, the movies that remain, none when [skip] is past
    the end; and every page lists rows of the table in table order. *)
Theorem list_movies_pages (db : Session) (skip n m : nat) :
  list_movies db skip n ++ list_movies db (skip + n) m
  = list_movies db skip (n + m)
  /\ List.length (list_movies db skip n)
     = Nat.min n (List.length (movies db) - skip)
  /\ (exists before after,
         movies db = before ++ list_movies db skip n ++ after
         /\ List.length before = Nat.min skip (List.length (movies db))).
Proof.
  unfold list_movies. split; [|split].
  - rewrite firstn_add, Nat.add_comm, <- skipn_skipn. reflexivity.
  - now rewrite length_firstn, length_skipn.
  - exists (firstn skip (movies db)), (skipn n (skipn skip (movies db))).
    split.
    + now rewrite firstn_skipn, firstn_skipn.
    + apply length_firstn.
Qed.

(* ------------------------------------------------------------------ *)
(** ** Rating upserts *)

Lemma same_key_filter_unique (uid mid : Z) (rows : list Rating) :
  ratings_unique rows ->
  (List.length (filter (same_key uid mid) rows) <= 1)%nat.
Proof.
  unfold ratings_unique.
  induction rows as [|r rows IH]; simpl; intros Hnd; [lia|].
  inversion Hnd as [|? ? Hnotin Hnd']; subst.
  destruct (same_key uid mid r) eqn:E; [|auto].
  simpl. replace (filter (same_key uid mid) rows) with (@nil Rating);
    [simpl; lia|].
  symmetry.
  destruct (filter (same_key uid mid) rows) as [|r' l] eqn:Ef;
    [reflexivity|].
  exfalso. apply Hnotin.
  assert (Hin : In r' (filter (same_key uid mid) rows))
    by (rewrite Ef; now left).
  apply filter_In in Hin as [Hin Hk].
  unfold same_key in *.
  apply andb_true_iff in E as [E1 E2]. apply andb_true_iff in Hk as [K1 K2].
  apply Z.eqb_eq in E1, E2, K1, K2.
  apply in_map_iff. exists r'. split; [congruence | assumption].
Qed.

Lemma update_rating_keys (uid mid : Z) (v : Q) (rows : list Rating) :
  map (fun r => (user_id r, movie_id r)) (update_rating uid mid v rows)
  = map (fun r => (user_id r, movie_id r)) rows.
Proof.
  unfold update_rating. rewrite map_map. apply map_ext.
  intros r. destruct (same_key uid mid r) eqn:E; [|reflexivity].
  unfold same_key in E. apply andb_true_iff in E as [E1 E2].
  apply Z.eqb_eq in E1, E2. simpl. congruence.
Qed.

Lemma update_rating_In (uid mid : Z) (v : Q) (rows : list Rating) x :
  filter (same_key uid mid) rows <> [] ->
  In x (update_rating uid mid v rows)
  <-> x = mkRating uid mid v
      \/ (In x rows /\ same_key uid mid x = false).
Proof.
  intros Hne. unfold update_rating. rewrite in_map_iff. split.
  - intros [r [Hx Hin]]. destruct (same_key uid mid r) eqn:E.
    + now left.
    + right. subst x. auto.
  - intros [->|[Hin Hk]].
    + destruct (filter (same_key uid mid) rows) as [|r l] eqn:Ef;
        [congruence|].
      assert (Hr : In r (filter (same_key uid mid) rows))
        by (rewrite Ef; now left).
      apply filter_In in Hr as [Hr Hk]. exists r. now rewrite Hk.
    + exists x. now rewrite Hk.
Qed.

Section UpsertFacts.

Variable add_row : Rating -> list Rating -> list Rating.

(** The store neither loses nor invents rows when it adds one. *)
Hypothesis add_row_perm :
  forall r rows, Permutation (add_row r rows) (r :: rows).

Lemma add_row_In r rows x : In x (add_row r rows) <-> x = r \/ In x rows.
Proof.
  split.
  - intros H. apply (Permutation_in _ (add_row_perm r rows)) in H.
    destruct H; auto.
  - intros H. apply (Permutation_in _ (Permutation_sym (add_row_perm r rows))).
    destruct H; [left | right]; auto.
Qed.

(** What a successful upsert does to the table: the rows of the key give
    way to the new row, the others stay. *)
Lemma upsert_rating_ok (db : Database) (uid : Z) (payload : RatingIn) :
  let mid := in_movie_id payload in
  let r := mkRating uid mid (in_rating payload) in
  get_user db uid <> None ->
  get_movie db mid <> None ->
  ratings_unique (ratings (session db)) ->
  exists rows',
    upsert_rating add_row db uid payload = (inr r, with_ratings db rows')
    /\ (forall x, In x rows'
                  <-> x = r \/ (In x (ratings (session db))
                                /\ same_key uid mid x = false))
    /\ ratings_unique rows'
    /\ List.length rows'
       = (List.length (ratings (session db))
          + match filter (same_key uid mid) (ratings (session db)) with
            | [] => 1
            | _ :: _ => 0
            end)%nat.
Proof.
  intros mid r Hu Hm Huniq. unfold upsert_rating. fold mid.
  destruct (get_user db uid); [|congruence].
  destruct (get_movie db mid); [|congruence].
  pose proof (same_key_filter_unique uid mid _ Huniq) as Hle.
  destruct (filter (same_key uid mid) (ratings (session db)))
    as [|r0 [|r1 l]] eqn:Ef; simpl in Hle; [| |lia].
  - exists (add_row r (ratings (session db))). simpl.
    split; [reflexivity|]. split; [|split].
    + intros x. rewrite add_row_In. split.
      * intros [->|Hin]; [now left|]. right. split; [assumption|].
        destruct (same_key uid mid x) eqn:E; [|reflexivity].
        assert (Hx : In x (filter (same_key uid mid) (ratings (session db))))
          by (apply filter_In; auto).
        rewrite Ef in Hx. destruct Hx.
      * intros [->|[Hin _]]; auto.
    + unfold ratings_unique in *.
      eapply Permutation_NoDup;
        [apply Permutation_sym, Permutation_map, add_row_perm|].
      simpl. constructor; [|assumption].
      intros Hin. apply in_map_iff in Hin as [x [Hk Hin]].
      assert (Hx : In x (filter (same_key uid mid) (ratings (session db)))).
      { apply filter_In. split; [assumption|]. unfold same_key.
        inversion Hk as [[H1 H2]]. rewrite H1, H2, !Z.eqb_refl. reflexivity. }
      rewrite Ef in Hx. destruct Hx.
    + rewrite (Permutation_length (add_row_perm r _)). simpl. lia.
  - exists (update_rating uid mid (in_rating payload) (ratings (session db))).
    simpl. split; [reflexivity|]. split; [|split].
    + intros x. apply update_rating_In. rewrite Ef. discriminate.
    + unfold ratings_unique. now rewrite update_rating_keys.
    + unfold update_rating. rewrite length_map. lia.
Qed.

End UpsertFacts.

(** X17.  [POST /api/users/{user_id}/ratings].  For a user or a movie that
    does not exist the handler raises the 404 and leaves the database as it
    is.  Otherwise, the ratings having one row per user and movie, it
    returns the rating sent, and afterwards the ratings of the user contain
    it and no other rating of that movie; the users and the movies are
    untouched. *)
Theorem upsert_then_get (add_row : Rating -> list Rating -> list Rating)
  (db : Database) (uid : Z) (payload : RatingIn) :
  let mid := in_movie_id payload in
  let r := mkRating uid mid (in_rating payload) in
  (forall x rows, Permutation (add_row x rows) (x :: rows)) ->
  (get_user db uid = None \/ get_movie db mid = None ->
   upsert_rating add_row db uid payload
   = (inl (HTTPException 404 "User or movie not found"), db))
  /\ (get_user db uid <> None -> get_movie db mid <> None ->
      ratings_unique (ratings (session db)) ->
      exists db',
        upsert_rating add_row db uid payload = (inr r, db')
        /\ In r (get_ratings db' uid)
        /\ (forall x, In x (get_ratings db' uid) -> movie_id x = mid -> x = r)
        /\ users db' = users db
        /\ movies (session db') = movies (session db)).
Proof.
  intros mid r Hperm. split.
  - unfold upsert_rating. fold mid. intros [H|H].
    + now rewrite H.
    + rewrite H. now destruct (get_user db uid).
  - intros Hu Hm Huniq.
    destruct (upsert_rating_ok add_row Hperm db uid payload Hu Hm Huniq)
      as [rows' (Hup & Hin & _)].
    fold mid r in Hup, Hin.
    exists (with_ratings db rows'). split; [exact Hup|].
    unfold get_ratings, query_ratings_of. simpl.
    split; [|split; [|split]]; try reflexivity.
    + apply filter_In. split; [apply Hin; now left|].
      simpl. apply Z.eqb_refl.
    + intros x Hx Hmid. apply filter_In in Hx as [Hx Hux].
      apply Z.eqb_eq in Hux. apply Hin in Hx as [Hx|[_ Hk]]; [assumption|].
      unfold same_key in Hk. rewrite Hux, Hmid, !Z.eqb_refl in Hk.
      discriminate.
Qed.

Lemma upsert_then_get_witness :
  exists db',
    upsert_rating Sample2.append_row Sample2.database 8 (mkRatingIn 2 4)
    = (inr (mkRating 8 2 4), db')
    /\ get_ratings db' 8 = [mkRating 8 2 4]
    /\ upsert_rating Sample2.append_row Sample2.database 8 (mkRatingIn 9 4)
       = (inl (HTTPException 404 "User or movie not found"),
          Sample2.database).
Proof.
  assert (Hperm : forall x rows,
             Permutation (Sample2.append_row x rows) (x :: rows))
    by (intros x rows; apply Permutation_sym, Permutation_cons_append).
  destruct (upsert_then_get Sample2.append_row Sample2.database 8
              (mkRatingIn 2 4) Hperm) as [_ Hok].
  destruct (upsert_then_get Sample2.append_row Sample2.database 8
              (mkRatingIn 9 4) Hperm) as [Hmiss _].
  destruct Hok as [db' (Hup & _)];
    [discriminate | discriminate
     | unfold ratings_unique; simpl; repeat constructor; simpl; tauto|].
  exists db'. split; [exact Hup|]. split.
  - vm_compute in Hup. inversion Hup. reflexivity.
  - apply Hmiss. now right.
Defined.

(** X18.  An upsert touches one key only: a rating of another user or of
    another movie is in the table afterwards exactly when it was there
    before. *)
Theorem upsert_leaves_other_ratings
  (add_row : Rating -> list Rating -> list Rating)
  (db : Database) (uid : Z) (payload : RatingIn) (x : Rating) :
  (forall y rows, Permutation (add_row y rows) (y :: rows)) ->
  ratings_unique (ratings (session db)) ->
  user_id x <> uid \/ movie_id x <> in_movie_id payload ->
  In x (ratings (session (snd (upsert_rating add_row db uid payload))))
  <-> In x (ratings (session db)).
Proof.
  intros Hperm Huniq Hother.
  assert (Hk : same_key uid (in_movie_id payload) x = false).
  { unfold same_key. apply andb_false_iff.
    destruct Hother as [H|H]; [left | right]; now apply Z.eqb_neq. }
  destruct (get_user db uid) as [u|] eqn:Eu.
  - destruct (get_movie db (in_movie_id payload)) as [m|] eqn:Em.
    + destruct (upsert_rating_ok add_row Hperm db uid payload)
        as [rows' (Hup & Hin & _)];
        [rewrite Eu; discriminate | rewrite Em; discriminate | assumption|].
      rewrite Hup. simpl. rewrite Hin. split.
      * intros [->|[H _]]; [|assumption].
        unfold same_key in Hk. simpl in Hk. rewrite !Z.eqb_refl in Hk.
        discriminate.
      * intros H. right. auto.
    + unfold upsert_rating. rewrite Eu, Em. reflexivity.
  - unfold upsert_rating. rewrite Eu. reflexivity.
Qed.

Lemma upsert_leaves_other_ratings_witness :
  In (mkRating 7 1 5)
     (ratings (session (snd (upsert_rating Sample2.append_row Sample2.database
                                           7 (mkRatingIn 2 3))))).
Proof.
  apply (upsert_leaves_other_ratings Sample2.append_row Sample2.database 7
           (mkRatingIn 2 3) (mkRating 7 1 5)).
  - intros y rows. apply Permutation_sym, Permutation_cons_append.
  - unfold ratings_unique. simpl. repeat constructor. simpl. tauto.
  - right. simpl. discriminate.
  - simpl. now left.
Defined.

(** X19.  An upsert keeps the keys of the ratings table: after it, as
    before, there is one row per user and movie and every rating refers to
    a user and a movie that exist. *)
Theorem upsert_keeps_keys (add_row : Rating -> list Rating -> list Rating)
  (db : Database) (uid : Z) (payload : RatingIn) :
  (forall y rows, Permutation (add_row y rows) (y :: rows)) ->
  ratings_unique (ratings (session db)) ->
  references_exist db ->
  let db' := snd (upsert_rating add_row db uid payload) in
  ratings_unique (ratings (session db')) /\ references_exist db'.
Proof.
  intros Hperm Huniq Href db'. unfold db'.
  destruct (get_user db uid) as [u|] eqn:Eu.
  - destruct (get_movie db (in_movie_id payload)) as [m|] eqn:Em.
    + destruct (upsert_rating_ok add_row Hperm db uid payload)
        as [rows' (Hup & Hin & Hu' & _)];
        [rewrite Eu; discriminate | rewrite Em; discriminate | assumption|].
      rewrite Hup. simpl. split; [exact Hu'|].
      intros x Hx. simpl in Hx. apply Hin in Hx as [->|[Hx _]].
      * unfold get_user, get_movie in *. simpl. rewrite Eu, Em.
        split; discriminate.
      * exact (Href x Hx).
    + unfold upsert_rating. rewrite Eu, Em. simpl. auto.
  - unfold upsert_rating. rewrite Eu. simpl. auto.
Qed.

Lemma upsert_keeps_keys_witness :
  ratings_unique
    (ratings (session (snd (upsert_rating Sample2.append_row Sample2.database
                                          8 (mkRatingIn 2 4))))).
Proof.
  apply (upsert_keeps_keys Sample2.append_row Sample2.database 8
           (mkRatingIn 2 4)).
  - intros y rows. apply Permutation_sym, Permutation_cons_append.
  - unfold ratings_unique. simpl. repeat constructor. simpl. tauto.
  - intros x [<-|[]]. split; discriminate.
Defined.

(** X20.  Upserting a key again overwrites: the second upsert of a user
    for a movie adds no row, and the rating of the user for the movie is
    then the second value. *)
Theorem upsert_twice_overwrites
  (add_row : Rating -> list Rating -> list Rating)
  (db : Database) (uid mid : Z) (v1 v2 : Q) :
  (forall y rows, Permutation (add_row y rows) (y :: rows)) ->
  ratings_unique (ratings (session db)) ->
  get_user db uid <> None ->
  get_movie db mid <> None ->
  let db1 := snd (upsert_rating add_row db uid (mkRatingIn mid v1)) in
  let db2 := snd (upsert_rating add_row db1 uid (mkRatingIn mid v2)) in
  List.length (ratings (session db2)) = List.length (ratings (session db1))
  /\ In (mkRating uid mid v2) (get_ratings db2 uid)
  /\ forall x, In x (get_ratings db2 uid) -> movie_id x = mid ->
               x = mkRating uid mid v2.
Proof.
  intros Hperm Huniq Hu Hm db1 db2.
  destruct (upsert_rating_ok add_row Hperm db uid (mkRatingIn mid v1)
              Hu Hm Huniq) as [rows1 (Hup1 & Hin1 & Hu1 & _)].
  simpl in Hup1, Hin1.
  assert (Hdb1 : db1 = with_ratings db rows1) by (unfold db1; now rewrite Hup1).
  assert (Hu1' : get_user db1 uid <> None) by (rewrite Hdb1; exact Hu).
  assert (Hm1' : get_movie db1 mid <> None) by (rewrite Hdb1; exact Hm).
  assert (Huniq1 : ratings_unique (ratings (session db1)))
    by (rewrite Hdb1; exact Hu1).
  destruct (upsert_rating_ok add_row Hperm db1 uid (mkRatingIn mid v2)
              Hu1' Hm1' Huniq1) as [rows2 (Hup2 & Hin2 & _ & Hlen2)].
  simpl in Hup2, Hin2, Hlen2.
  assert (Hdb2 : db2 = with_ratings db1 rows2)
    by (unfold db2; now rewrite Hup2).
  rewrite Hdb2. simpl. split; [|split].
  - rewrite Hlen2.
    destruct (filter (same_key uid mid) (ratings (session db1)))
      as [|r0 l] eqn:Ef; [|lia].
    exfalso.
    assert (Hin : In (mkRating uid mid v1)
                     (filter (same_key uid mid) (ratings (session db1)))).
    { apply filter_In. split.
      - rewrite Hdb1. simpl. apply Hin1. now left.
      - unfold same_key. simpl. now rewrite !Z.eqb_refl. }
    rewrite Ef in Hin. destruct Hin.
  - unfold get_ratings, query_ratings_of. simpl.
    apply filter_In. split; [apply Hin2; now left | apply Z.eqb_refl].
  - intros x Hx Hmid. unfold get_ratings, query_ratings_of in Hx.
    simpl in Hx. apply filter_In in Hx as [Hx Hux].
    apply Z.eqb_eq in Hux. apply Hin2 in Hx as [Hx|[_ Hk]]; [assumption|].
    unfold same_key in Hk. rewrite Hux, Hmid, !Z.eqb_refl in Hk.
    discriminate.
Qed.

Lemma upsert_twice_overwrites_witness :
  get_ratings
    (snd (upsert_rating Sample2.append_row
            (snd (upsert_rating Sample2.append_row Sample2.database 8
                                (mkRatingIn 2 4)))
            8 (mkRatingIn 2 1)))
    8
  = [mkRating 8 2 1].
Proof.
  destruct (upsert_twice_overwrites Sample2.append_row Sample2.database 8 2
              4 1) as (_ & Hin & _).
  - intros y rows. apply Permutation_sym, Permutation_cons_append.
  - unfold ratings_unique. simpl. repeat constructor. simpl. tauto.
  - discriminate.
  - discriminate.
  - reflexivity.
Defined.

(* ------------------------------------------------------------------ *)
(** ** From a stale or missing model to a served request *)

Lemma recommend_for_user_after_ensure (sk : Sklearn) db uid limit w r w1 r' :
  query_ratings_of db uid <> [] ->
  ensure_model sk db w = (Ok r, w1) ->
  ensure_model sk db w1 = (Ok r', w1) ->
  recommend_for_user sk db uid limit w = recommend_for_user sk db uid limit w1.
Proof.
  intros Hr He He1. unfold recommend_for_user.
  rewrite (is_empty_false _ Hr). unfold bind. now rewrite He, He1.
Qed.

(** X21.  The first request after the catalog changed size (or in a fresh
    process) is served by one refit.  When the model has no matrix or not
    as many identifiers as the catalog has movies, some movie yields a
    term, the movie identifiers are distinct and the ratings of the user,
    of which there is at least one, refer to movies of the catalog, then
    [recommend_for_user] returns; [fit] was called once, the model is in
    step with the catalog afterwards, and the result has [limit] entries
    or, if fewer movies are not liked, one for each of them (the
    popularity ranking when every movie is liked). *)
Theorem first_request_is_served (sk : Sklearn) (db : Session) (uid : Z)
  (limit : nat) (w : World) :
  let liked := liked_ids_of db uid in
  tfidf_matrix (recommender w) = None
  \/ List.length (movie_ids (recommender w)) <> List.length (movies db) ->
  (exists m, In m (movies db) /\ analyze sk (_build_corpus_row m) <> []) ->
  NoDup (map id (movies db)) ->
  query_ratings_of db uid <> [] ->
  (forall mid, In mid liked -> In mid (map id (movies db))) ->
  exists out w',
    recommend_for_user sk db uid limit w = (Ok out, w')
    /\ fit_calls w' = S (fit_calls w)
    /\ (exists X, in_step w' db X)
    /\ (candidates db liked <> [] ->
        List.length out = Nat.min limit (List.length (candidates db liked)))
    /\ (candidates db liked = [] -> out = popularity_ranking db limit).
Proof.
  intros liked Hstale [m0 [Hm0 Ht0]] Hnd Hr Hfk.
  assert (Hne : movies db <> []) by (intros H; rewrite H in Hm0; destruct Hm0).
  pose proof (ensure_model_refit sk db w Hstale) as He.
  pose proof (fit_outcome sk (movies db) w) as (Hout & Hf & Hs).
  pose proof (fit_returns_iff sk (movies db) w) as Hret.
  destruct (fit sk (movies db) w) as [[[]|e] w1] eqn:Efit; simpl in *.
  - set (X := map (document_vector sk (movies db)) (movies db)).
    assert (Hrec : recommender w1 = mkRecommender (map id (movies db)) (Some X)).
    { rewrite Hout. destruct (movies db); [congruence | reflexivity]. }
    assert (Hstep : in_step w1 db X).
    { unfold in_step, fitted. rewrite Hrec. simpl.
      repeat split; auto.
      - unfold X. now rewrite !length_map.
      - intros Hnil. apply map_eq_nil in Hnil. contradiction. }
    assert (He1 : ensure_model sk db w1 = (Ok (recommender w1), w1)).
    { apply (ensure_model_cached sk db w1 X); rewrite Hrec; simpl;
        [reflexivity | apply length_map]. }
    destruct (recommend_in_step sk db uid limit w1 X Hstep Hr Hfk)
      as [out (Hcall & Hsome & Hnone)].
    exists out, (after_similarity w1).
    rewrite (recommend_for_user_after_ensure sk db uid limit w
               (recommender w1) w1 (recommender w1) Hr He He1).
    split; [exact Hcall|]. split; [exact Hf|].
    split; [exists X; exact Hstep|].
    split; [|exact Hnone].
    intros Hc. now apply Hsome.
  - exfalso. destruct Hret as [_ Hret].
    assert (H : @Raise unit e = Ok tt); [|discriminate].
    apply Hret. right. apply count_vocab_nonempty. eauto.
Qed.

Lemma first_request_is_served_witness :
  exists out w',
    recommend_for_user Sample.sklearn Sample.db 7 1 initial_world
    = (Ok out, w')
    /\ fit_calls w' = 1%nat
    /\ List.length out = 1%nat.
Proof.
  destruct (first_request_is_served Sample.sklearn Sample.db 7 1
              initial_world) as (out & w' & Hcall & Hf & _ & Hlen & _).
  - now left.
  - exists Sample.space_war. split; [now left | vm_compute; discriminate].
  - simpl. repeat constructor; simpl; intuition discriminate.
  - discriminate.
  - intros mid [<-|[]]. simpl. auto.
  - exists out, w'. split; [exact Hcall|]. split; [exact Hf|].
    apply Hlen. discriminate.
Defined.

(* ------------------------------------------------------------------ *)
(** ** The document of a movie *)



